(** * The jewelry catalog page: product store, filter/sort effect, reset control

    A shallow embedding of [src/app/catalog/page.tsx].  The page keeps six
    pieces of component state, loads the product list once, and re-derives
    the displayed list from the stored one whenever the list or one of the
    four filter parameters changes.

    Arrays are JavaScript objects: [let filtered = products] copies a
    reference, [Array.prototype.filter] allocates a new array and
    [Array.prototype.sort] reorders its receiver in place.  The embedding
    therefore keeps array contents in a heap and lets the component state
    hold references into it. *)

From Stdlib Require Import QArith Lqa Ascii String OrdersEx Sorting.Sorted Sorting.Permutation.
From stdpp Require Import gmap strings list.

Open Scope string_scope.

(** ** The language runtime *)

Module JS.

(** A [number] is a finite IEEE double, represented by the rational it
    denotes.  The page only ever looks at the sign of a difference of two
    such numbers, and the sign of a floating-point difference of two finite
    doubles is the sign of the exact difference. *)
Definition number := Q.

(** Strings are sequences of code units, here [string]; the operations
    below compare and search code unit by code unit, as the language does.

    [if (s)] on a string: every string but the empty one is truthy. *)
Definition truthy (s : string) : bool :=
  match s with
  | EmptyString => false
  | String _ _ => true
  end.

(** [a === b] on strings. *)
Definition strict_eq (a b : string) : bool := String.eqb a b.

(** [s.includes(t)]: [t] occurs in [s] at some position. *)
Fixpoint includes (s t : string) : bool :=
  String.prefix t s ||
  match s with
  | EmptyString => false
  | String _ s' => includes s' t
  end.

(** What ECMAScript asks of a comparison function for the result of
    [sort] to be defined by the language rather than by the engine. *)
Record Consistent {A : Type} (cmp : A -> A -> number) : Prop := {
  cmp_refl : forall a, (cmp a a == 0)%Q;
  cmp_sym : forall a b, (cmp a b == 0)%Q -> (cmp b a == 0)%Q;
  cmp_eq_trans : forall a b c,
    (cmp a b == 0)%Q -> (cmp b c == 0)%Q -> (cmp a c == 0)%Q;
  cmp_lt_trans : forall a b c,
    (cmp a b < 0)%Q -> (cmp b c < 0)%Q -> (cmp a c < 0)%Q;
  cmp_gt_trans : forall a b c,
    (0 < cmp a b)%Q -> (0 < cmp b c)%Q -> (0 < cmp a c)%Q
}.

(** [Array.prototype.sort] is required to be stable (ECMAScript 2019), so
    with a consistent comparison function its result is the one list that
    is sorted and keeps tied elements in their input order.  The model
    computes that list by insertion from the right: an element moves past
    those it compares greater than, and stays in front of its ties. *)
Section Sort.
Context {A : Type} (cmp : A -> A -> number).

Fixpoint insert (x : A) (l : list A) : list A :=
  match l with
  | [] => [x]
  | y :: l' => if Qle_bool (cmp x y) 0 then x :: y :: l' else y :: insert x l'
  end.

Definition sort (l : list A) : list A := foldr insert [] l.

(** [a] may stand in front of [b] in a sorted array. *)
Definition precedes (a b : A) : Prop := (cmp a b <= 0)%Q.

(** [a] and [b] are a tie. *)
Definition tied (a b : A) : bool := Qeq_bool (cmp a b) 0.
End Sort.

(** The two string operations whose tables belong to the engine and its
    locale data: Unicode case mapping and collation.  [localeCompare] is
    required by the language to be a consistent comparison function. *)
Class Engine := {
  toLowerCase : string -> string;
  localeCompare : string -> string -> number;
  localeCompare_consistent : Consistent localeCompare
}.

End JS.

Import JS.

(** ** Data model *)

Record Product := {
  id : string;
  name : string;
  category : string;
  image : string;
  rating : number;
  reviews : number;
  metal : string;
  purity : string;
  weight : string;
  description : string
}.

(** ** Heap, console and the effect monad *)

Definition loc := positive.

(** What a piece of state typed [Product[]] can hold at run time: a
    reference to an array, or whatever else [response.json()] produced. *)
Inductive value :=
| Arr (r : loc)
| NonArr.

(** What can be thrown: [fetch] without a response, [response.json()] on
    a body that is not JSON, a method call on a value that has no such
    method, and the read of a reference the heap does not have (which the
    page, holding only references it was given by [alloc], never does). *)
Inductive error :=
| NetworkFailure
| JsonSyntaxError
| NotAFunction
| Dangling.

Inductive result (A : Type) :=
| Returns (a : A)
| Throws (e : error).
Arguments Returns {A} a.
Arguments Throws {A} e.

Record World := {
  heap : gmap loc (list Product);
  console : list (string * error)
}.

Definition M (A : Type) : Type := World -> result A * World.

Definition ret {A} (a : A) : M A := fun w => (Returns a, w).

Definition bind {A B} (m : M A) (k : A -> M B) : M B :=
  fun w =>
    match m w with
    | (Returns a, w') => k a w'
    | (Throws e, w') => (Throws e, w')
    end.

Definition throw {A} (e : error) : M A := fun w => (Throws e, w).

Definition try_catch {A} (m : M A) (handler : error -> M A) : M A :=
  fun w =>
    match m w with
    | (Returns a, w') => (Returns a, w')
    | (Throws e, w') => handler e w'
    end.

Declare Scope js_scope.
Delimit Scope js_scope with js.
Notation "x <- m ;; k" := (bind m (fun x => k))
  (at level 100, m at next level, right associativity) : js_scope.
Notation "m ;;; k" := (bind m (fun _ => k))
  (at level 100, right associativity) : js_scope.
Open Scope js_scope.

(** An array literal or a freshly built array: a new object. *)
Definition alloc (a : list Product) : M loc :=
  fun w =>
    let r := fresh (dom (heap w)) in
    (Returns r, {| heap := <[r := a]> (heap w); console := console w |}).

Definition read (r : loc) : M (list Product) :=
  fun w =>
    match heap w !! r with
    | Some a => (Returns a, w)
    | None => (Throws Dangling, w)
    end.

Definition write (r : loc) (a : list Product) : M unit :=
  fun w => (Returns tt, {| heap := <[r := a]> (heap w); console := console w |}).

Definition console_error (msg : string) (e : error) : M unit :=
  fun w => (Returns tt, {| heap := heap w; console := console w ++ [(msg, e)] |}).

(** [v.filter(f)]: a new array holding the elements [f] accepts, in order;
    the receiver is left alone. *)
Definition Array_filter (f : Product -> bool) (v : value) : M value :=
  match v with
  | Arr r => a <- read r ;; r' <- alloc (List.filter f a) ;; ret (Arr r')
  | NonArr => throw NotAFunction
  end.

(** [v.sort(cmp)]: reorders the receiver in place and returns it. *)
Definition Array_sort (cmp : Product -> Product -> number) (v : value) : M value :=
  match v with
  | Arr r => a <- read r ;; write r (sort cmp a) ;;; ret (Arr r)
  | NonArr => throw NotAFunction
  end.

(** ** The endpoint, as the page sees it *)

(** What [response.json()] resolves to when the body is valid JSON:
    [JProducts], an array of records that have the fields of the
    interface, with strings and finite numbers where the interface has
    them; [JOther], a value that is not an array.  An array with other
    elements is stored by the page like any array; what the callbacks do
    on it depends on the element and the field, and it has no value
    here. *)
Inductive json :=
| JProducts (items : list Product)
| JOther.

Inductive body :=
| Malformed
| Json (j : json).

Record Response := { status : Z; payload : body }.

(** How one request to [/api/admin/products] ends. *)
Inductive exchange :=
| Unreachable
| Answered (r : Response).

(** [fetch(url)] rejects only when no response arrives; the status of a
    response is not looked at. *)
Definition fetch (net : exchange) : M Response :=
  match net with
  | Unreachable => throw NetworkFailure
  | Answered r => ret r
  end.

Definition Response_json (r : Response) : M value :=
  match payload r with
  | Malformed => throw JsonSyntaxError
  | Json (JProducts items) => a <- alloc items ;; ret (Arr a)
  | Json JOther => ret NonArr
  end.

(** ** Component state *)

Record State := {
  products : value;
  filteredProducts : value;
  searchTerm : string;
  selectedCategory : string;
  selectedMetal : string;
  sortBy : string
}.

Definition setProducts (v : value) (s : State) : State :=
  {| products := v; filteredProducts := filteredProducts s;
     searchTerm := searchTerm s; selectedCategory := selectedCategory s;
     selectedMetal := selectedMetal s; sortBy := sortBy s |}.

Definition setFilteredProducts (v : value) (s : State) : State :=
  {| products := products s; filteredProducts := v;
     searchTerm := searchTerm s; selectedCategory := selectedCategory s;
     selectedMetal := selectedMetal s; sortBy := sortBy s |}.

Definition setSearchTerm (t : string) (s : State) : State :=
  {| products := products s; filteredProducts := filteredProducts s;
     searchTerm := t; selectedCategory := selectedCategory s;
     selectedMetal := selectedMetal s; sortBy := sortBy s |}.

Definition setSelectedCategory (c : string) (s : State) : State :=
  {| products := products s; filteredProducts := filteredProducts s;
     searchTerm := searchTerm s; selectedCategory := c;
     selectedMetal := selectedMetal s; sortBy := sortBy s |}.

Definition setSelectedMetal (m : string) (s : State) : State :=
  {| products := products s; filteredProducts := filteredProducts s;
     searchTerm := searchTerm s; selectedCategory := selectedCategory s;
     selectedMetal := m; sortBy := sortBy s |}.

Definition setSortBy (k : string) (s : State) : State :=
  {| products := products s; filteredProducts := filteredProducts s;
     searchTerm := searchTerm s; selectedCategory := selectedCategory s;
     selectedMetal := selectedMetal s; sortBy := k |}.

(** The six [useState] initialisers. *)
Definition CatalogPage_init : M State :=
  a <- alloc [] ;;
  b <- alloc [] ;;
  ret {| products := Arr a; filteredProducts := Arr b; searchTerm := "";
         selectedCategory := "all"; selectedMetal := "all"; sortBy := "name" |}.

(** ** The component *)

Section CatalogPage.
Context `{Engine}.

(** The first effect: one request when the page mounts. *)
Definition fetchProducts (net : exchange) (s : State) : M State :=
  try_catch
    (response <- fetch net ;;
     data <- Response_json response ;;
     ret (setFilteredProducts data (setProducts data s)))
    (fun e =>
       console_error "Failed to fetch products:" e ;;;
       a <- alloc [] ;;
       b <- alloc [] ;;
       ret (setFilteredProducts (Arr b) (setProducts (Arr a) s))).

(** The three filter callbacks. *)
Definition matchesSearch (term : string) (product : Product) : bool :=
  includes (toLowerCase (name product)) (toLowerCase term) ||
  includes (toLowerCase (category product)) (toLowerCase term) ||
  includes (toLowerCase (description product)) (toLowerCase term).

Definition matchesCategory (c : string) (product : Product) : bool :=
  strict_eq (category product) c.

Definition matchesMetal (m : string) (product : Product) : bool :=
  strict_eq (toLowerCase (metal product)) (toLowerCase m).

(** The comparison function handed to [sort]. *)
Definition comparator (key : string) (a b : Product) : number :=
  if strict_eq key "rating" then (rating b - rating a)%Q
  else if strict_eq key "reviews" then (reviews b - reviews a)%Q
  else localeCompare (name a) (name b).

(** The steps of the second effect, each on the running [filtered]. *)
Definition searchStep (term : string) (filtered : value) : M value :=
  if truthy term then Array_filter (matchesSearch term) filtered
  else ret filtered.

Definition categoryStep (c : string) (filtered : value) : M value :=
  if negb (strict_eq c "all") then Array_filter (matchesCategory c) filtered
  else ret filtered.

Definition metalStep (m : string) (filtered : value) : M value :=
  if negb (strict_eq m "all") then Array_filter (matchesMetal m) filtered
  else ret filtered.

Definition sortStep (key : string) (filtered : value) : M value :=
  Array_sort (comparator key) filtered.

(** The second effect: runs after every change of the stored list or of a
    filter parameter. *)
Definition pipeline (s : State) : M State :=
  let filtered := products s in
  filtered <- searchStep (searchTerm s) filtered ;;
  filtered <- categoryStep (selectedCategory s) filtered ;;
  filtered <- metalStep (selectedMetal s) filtered ;;
  sortStep (sortBy s) filtered ;;;
  ret (setFilteredProducts filtered s).

(** The list the effect derives, as a function of the array contents. *)
Definition compute (P : list Product) (term c m key : string) : list Product :=
  let l1 := if truthy term then List.filter (matchesSearch term) P else P in
  let l2 := if negb (strict_eq c "all") then List.filter (matchesCategory c) l1 else l1 in
  let l3 := if negb (strict_eq m "all") then List.filter (matchesMetal m) l2 else l2 in
  sort (comparator key) l3.

(** [onClick] of "Clear All Filters". *)
Definition clearAllFilters (s : State) : State :=
  setSelectedMetal "all" (setSelectedCategory "all" (setSearchTerm "" s)).

End CatalogPage.


(** ** Vocabulary of the statements *)

(** [out] keeps exactly the elements of [P] with property [Q], in the order
    and number in which [P] has them. *)
Inductive Retains (Q : Product -> Prop) : list Product -> list Product -> Prop :=
| retains_nil : Retains Q [] []
| retains_keep p P out : Q p -> Retains Q P out -> Retains Q (p :: P) (p :: out)
| retains_drop p P out : ~ Q p -> Retains Q P out -> Retains Q (p :: P) out.

(** The value [v] is an array whose elements are [l]. *)
Definition holds (w : World) (v : value) (l : list Product) : Prop :=
  exists r, v = Arr r /\ heap w !! r = Some l.

(** A status in the 2xx range. *)
Definition success (r : Response) : Prop := (200 <= status r <= 299)%Z.

(** The requests the specification counts as failed: no response, a
    response outside the 2xx range, or a body that is not a JSON array. *)
Definition failed (net : exchange) : Prop :=
  match net with
  | Unreachable => True
  | Answered r => ~ success r \/ forall items, payload r <> Json (JProducts items)
  end.

(** The requests on which [fetchProducts] reaches its [catch] block: no
    response, or a body that is not JSON at all. *)
Definition rejected (net : exchange) : Prop :=
  match net with
  | Unreachable => True
  | Answered r => payload r = Malformed
  end.

(** No filter is switched on. *)
Definition unfiltered (s : State) : bool :=
  negb (truthy (searchTerm s)) &&
  strict_eq (selectedCategory s) "all" &&
  strict_eq (selectedMetal s) "all".

(** [w'] is [w] with more arrays allocated and nothing else changed. *)
Definition grows (w w' : World) : Prop :=
  console w' = console w /\
  forall k a, heap w !! k = Some a -> heap w' !! k = Some a.

Section Vocabulary.
Context `{Engine}.

(** [field] contains [term] as a substring, letter case set aside. *)
Definition containsIgnoringCase (field term : string) : Prop :=
  exists pre suf, toLowerCase field = pre ++ toLowerCase term ++ suf.

Definition searchHit (term : string) (p : Product) : Prop :=
  containsIgnoringCase (name p) term \/
  containsIgnoringCase (category p) term \/
  containsIgnoringCase (description p) term.

Definition equalIgnoringCase (a b : string) : Prop :=
  toLowerCase a = toLowerCase b.

Definition ratingDescending (a b : Product) : Prop := (rating b <= rating a)%Q.
Definition reviewsDescending (a b : Product) : Prop := (reviews b <= reviews a)%Q.
Definition nameAscending (a b : Product) : Prop :=
  (localeCompare (name a) (name b) <= 0)%Q.

(** The order each sort key stands for. *)
Definition orderOf (key : string) : Product -> Product -> Prop :=
  if decide (key = "rating") then ratingDescending
  else if decide (key = "reviews") then reviewsDescending
  else nameAscending.

(** The outcome the specification promises for a failed request: both
    pieces of state are empty arrays, one line went to the console, and
    nothing is thrown. *)
Definition emptyCatalogLogged (net : exchange) (s : State) (w : World) : Prop :=
  exists s' w' e,
    fetchProducts net s w = (Returns s', w') /\
    holds w' (products s') [] /\
    holds w' (filteredProducts s') [] /\
    console w' = (console w ++ [("Failed to fetch products:", e)])%list.

(** The invariant the specification states for the second effect: the
    stored array still has its elements in their order, and the displayed
    list is another array. *)
Definition storeUntouched (s : State) (w : World) : Prop :=
  forall r P s' w',
    products s = Arr r -> heap w !! r = Some P ->
    pipeline s w = (Returns s', w') ->
    heap w' !! r = Some P /\ filteredProducts s' <> Arr r.

End Vocabulary.

(** ** The view *)

Module Category.
Record t := { value : string; label : string; path : string }.
End Category.

Definition categories : list Category.t := [
  {| Category.value := "all"; Category.label := "All Categories";
     Category.path := "/catalog" |};
  {| Category.value := "Rings"; Category.label := "Rings";
     Category.path := "/catalog/Ring" |};
  {| Category.value := "Necklaces"; Category.label := "Necklaces";
     Category.path := "/catalog/Necklace" |};
  {| Category.value := "Earrings"; Category.label := "Earrings";
     Category.path := "/catalog/Earring" |};
  {| Category.value := "Bracelets"; Category.label := "Bracelets";
     Category.path := "/catalog/Bracelet" |};
  {| Category.value := "Pendants"; Category.label := "Pendants";
     Category.path := "/catalog/Pendant" |}
].

(** One button of the category navigation: the link it sits in, its look,
    and what a click does to the state. *)
Module NavButton.
Record t := {
  key : string;
  href : string;
  variant : string;
  label : string;
  onClick : State -> State
}.
End NavButton.

(** One card of the grid: the image, the two links (both to the same
    address) and the heading. *)
Module Card.
Record t := {
  key : string;
  src : string;
  alt : string;
  href : string;
  heading : string
}.
End Card.

Record View := {
  navigation : list NavButton.t;
  cards : list Card.t;
  noResultsPanel : bool
}.

(** [a || b] on strings: [a] unless it is empty. *)
Definition orElse (a b : string) : string := if truthy a then a else b.

Definition renderNavigation (s : State) : list NavButton.t :=
  map (fun entry =>
         {| NavButton.key := Category.value entry;
            NavButton.href := Category.path entry;
            NavButton.variant :=
              if strict_eq (selectedCategory s) (Category.value entry)
              then "default" else "outline";
            NavButton.label := Category.label entry;
            NavButton.onClick := setSelectedCategory (Category.value entry) |})
      categories.

Definition renderCard (product : Product) : Card.t :=
  {| Card.key := id product;
     Card.src := orElse (image product) "/placeholder.svg";
     Card.alt := name product;
     Card.href := "/catalog/" ++ category product;
     Card.heading := name product |}.

(** The returned markup, as far as it depends on the state.
    [filteredProducts.map] is the first use of the displayed list, and a
    value that is not an array has no [map]. *)
Definition render (s : State) : M View :=
  match filteredProducts s with
  | Arr r =>
      a <- read r ;;
      ret {| navigation := renderNavigation s;
             cards := map renderCard a;
             noResultsPanel := match a with [] => true | _ :: _ => false end |}
  | NonArr => throw NotAFunction
  end.

(** ** The life of the page *)

(** What can happen to a mounted page: the request of the first effect
    ends, a navigation button or the button of the panel is clicked, the
    second effect runs. *)
Inductive event :=
| Resolve (net : exchange)
| SelectCategory (entry : Category.t)
| ClearAllFilters
| Effect.

(** The buttons that exist are those of [categories]. *)
Definition offered (e : event) : Prop :=
  match e with
  | SelectCategory entry => In entry categories
  | _ => True
  end.

Definition userEvent (e : event) : Prop :=
  match e with
  | Resolve _ => False
  | _ => True
  end.

(** The response, if any, carries an array of product records
    ([JProducts]) or is no JSON at all. *)
Definition productsOrRejected (e : event) : Prop :=
  match e with
  | Resolve (Answered r) => payload r <> Json JOther
  | _ => True
  end.

Section Lifecycle.
Context `{Engine}.

Definition handle (e : event) (s : State) : M State :=
  match e with
  | Resolve net => fetchProducts net s
  | SelectCategory entry => ret (setSelectedCategory (Category.value entry) s)
  | ClearAllFilters => ret (clearAllFilters s)
  | Effect => pipeline s
  end.

Fixpoint run (es : list event) (s : State) : M State :=
  match es with
  | [] => ret s
  | e :: es' => s' <- handle e s ;; run es' s'
  end.

(** A page from its mounting on.  Any order of events is allowed here,
    which covers every order the framework can produce. *)
Definition session (es : list event) : M State :=
  s <- CatalogPage_init ;; run es s.

End Lifecycle.

(** ** Vocabulary for the page as a whole *)

(** The value [v] is an array of the heap. *)
Definition alive (w : World) (v : value) : Prop := exists l, holds w v l.

(** The filter parameters are the ones the page starts with, but for the
    category, which is one of those on offer. *)
Definition initialFilters (s : State) : Prop :=
  searchTerm s = "" /\
  selectedMetal s = "all" /\
  sortBy s = "name" /\
  In (selectedCategory s) (map Category.value categories).

(** Whatever is displayed is in the store. *)
Definition displayedWithinStore (s : State) (w : World) : Prop :=
  forall P F,
    holds w (products s) P -> holds w (filteredProducts s) F ->
    forall p, In p F -> In p P.

Section Passing.
Context `{Engine}.

(** The product gets through every filter that is switched on. *)
Definition keeps (term c m : string) (p : Product) : bool :=
  (negb (truthy term) || matchesSearch term p) &&
  (strict_eq c "all" || matchesCategory c p) &&
  (strict_eq m "all" || matchesMetal m p).

Definition passes (term c m : string) (p : Product) : Prop :=
  (term = "" \/ searchHit term p) /\
  (c = "all" \/ category p = c) /\
  (m = "all" \/ toLowerCase (metal p) = toLowerCase m).

End Passing.
(** ** A concrete engine and the catalog of the worked scenarios *)

Module Sample.

Definition lowerChar (c : ascii) : ascii :=
  let n := nat_of_ascii c in
  if (65 <=? n)%nat && (n <=? 90)%nat then ascii_of_nat (n + 32) else c.

Fixpoint lower (s : string) : string :=
  match s with
  | EmptyString => EmptyString
  | String c s' => String (lowerChar c) (lower s')
  end.

Definition codeUnitCompare (a b : string) : number :=
  match String_as_OT.compare a b with
  | Eq => 0
  | Lt => -1
  | Gt => 1
  end%Q.

(** Lower-casing of the ASCII letters and comparison by code units: an
    engine as the language allows it, on which the page can be run. *)
#[export, refine] Instance engine : Engine := {|
  toLowerCase := lower;
  localeCompare := codeUnitCompare
|}.
Proof.
  assert (Irr : forall a, ~ String_as_OT.lt a a).
  { intros a. apply (StrictOrder_Irreflexive a). }
  assert (Tr : forall a b c,
             String_as_OT.lt a b -> String_as_OT.lt b c -> String_as_OT.lt a c).
  { intros a b c. apply (StrictOrder_Transitive a b c). }
  assert (R : forall a, String_as_OT.compare a a = Eq).
  { intros a. destruct (String_as_OT.compare_spec a a) as [_ | L | L];
      [reflexivity | |]; now apply Irr in L. }
  assert (G : forall a b, String_as_OT.compare a b = Gt -> String_as_OT.lt b a).
  { intros a b E. destruct (String_as_OT.compare_spec a b); congruence. }
  assert (L : forall a b, String_as_OT.lt a b -> String_as_OT.compare b a = Gt).
  { intros a b Hab. destruct (String_as_OT.compare_spec b a) as [-> | Hba | Hba];
      [| | reflexivity].
    - now apply Irr in Hab.
    - exfalso. apply (Irr a). now apply Tr with b. }
  unfold codeUnitCompare. split.
  - intros a. now rewrite R.
  - intros a b. destruct (String_as_OT.compare_spec a b) as [-> | |];
      [now rewrite R | intros E; inversion E ..].
  - intros a b c.
    destruct (String_as_OT.compare_spec a b) as [-> | |];
      [| intros E; inversion E ..].
    intros _ E. exact E.
  - intros a b c.
    destruct (String_as_OT.compare a b) eqn:Eab;
      [intros E; inversion E | | intros E; inversion E].
    destruct (String_as_OT.compare b c) eqn:Ebc;
      [intros _ E; inversion E | | intros _ E; inversion E].
    intros _ _.
    assert (Hac : String_as_OT.lt a c) by (now apply Tr with b).
    unfold String_as_OT.lt in Hac. now rewrite Hac.
  - intros a b c.
    destruct (String_as_OT.compare a b) eqn:Eab;
      [intros E; inversion E | intros E; inversion E |].
    destruct (String_as_OT.compare b c) eqn:Ebc;
      [intros _ E; inversion E | intros _ E; inversion E |].
    intros _ _. apply G in Eab, Ebc.
    rewrite (L c a); [reflexivity | now apply Tr with b].
Defined.

Definition goldRing : Product := {|
  id := "p1"; name := "Gold Ring"; category := "Rings"; image := "";
  rating := 4%Q; reviews := 10%Q; metal := "Gold"; purity := "22K";
  weight := "4g"; description := "A plain band"
|}.

Definition pearlPendant : Product := {|
  id := "p3"; name := "Pearl Pendant"; category := "Pendants"; image := "";
  rating := 4%Q; reviews := 10%Q; metal := "Silver"; purity := "925";
  weight := "2g"; description := "A pearl on a chain"
|}.

Definition silverBand : Product := {|
  id := "p2"; name := "Silver Band"; category := "Rings"; image := "";
  rating := 5%Q; reviews := 2%Q; metal := "Silver"; purity := "925";
  weight := "3g"; description := "A wide band"
|}.

Definition store (P : list Product) : World :=
  {| heap := {[ 1%positive := P ]}; console := [] |}.

Definition defaults : State :=
  {| products := Arr 1%positive; filteredProducts := Arr 1%positive;
     searchTerm := "";
     selectedCategory := "all"; selectedMetal := "all"; sortBy := "name" |}.

(** The endpoint answers 500 with a JSON error object. *)
Definition serverError : exchange :=
  Answered {| status := 500; payload := Json JOther |}.
End Sample.


(** ** A visit to the sample catalog *)

Module Visit.
Import Sample.

Definition ringsEntry : Category.t :=
  {| Category.value := "Rings"; Category.label := "Rings";
     Category.path := "/catalog/Ring" |}.

Definition ringsButton : NavButton.t :=
  {| NavButton.key := "Rings"; NavButton.href := "/catalog/Ring";
     NavButton.variant := "outline"; NavButton.label := "Rings";
     NavButton.onClick := setSelectedCategory "Rings" |}.

Definition blank : World := {| heap := ∅; console := [] |}.

Definition catalog : list Product := [silverBand; pearlPendant; goldRing].

Definition answer : exchange :=
  Answered {| status := 200; payload := Json (JProducts catalog) |}.

(** The page is mounted, the catalog arrives, "Rings" is clicked. *)
Definition visit : list event :=
  [Effect; Resolve answer; Effect; SelectCategory ringsEntry; Effect].

Definition clicks : list event :=
  [SelectCategory ringsEntry; Effect; ClearAllFilters; Effect].

End Visit.
(** * Properties of the runtime model *)

Module JSFacts.

(** ** Substring search *)

Lemma append_nil (s : string) : "" ++ s = s.
Proof. reflexivity. Qed.

Lemma append_cons (c : ascii) (t s : string) :
  String c t ++ s = String c (t ++ s).
Proof. reflexivity. Qed.

Lemma prefix_app (t s : string) :
  String.prefix t s = true <-> exists suf, s = t ++ suf.
Proof.
  revert s. induction t as [|c t IH]; intros s.
  - destruct s; simpl; split; eauto.
  - destruct s as [|d s]; simpl.
    + split; [discriminate | intros [suf E]; discriminate].
    + destruct (ascii_dec c d) as [->|ne].
      * rewrite IH. split; intros [suf E]; exists suf;
          rewrite append_cons in *; congruence.
      * split; [discriminate |].
        intros [suf E]. rewrite append_cons in E. congruence.
Qed.

(** [s.includes(t)] holds exactly when [s] is [t] with something in front
    of it and something behind it. *)
Lemma includes_spec (s t : string) :
  includes s t = true <-> exists pre suf, s = pre ++ t ++ suf.
Proof.
  induction s as [|c s IH]; cbn [includes].
  - rewrite orb_false_r, prefix_app. split.
    + intros [suf E]. exists "", suf. exact E.
    + intros [pre [suf E]]. destruct pre; [eauto | discriminate].
  - rewrite orb_true_iff, prefix_app, IH. split.
    + intros [[suf E] | [pre [suf E]]].
      * exists "", suf. exact E.
      * exists (String c pre), suf. rewrite append_cons. congruence.
    + intros [pre [suf E]]. destruct pre as [|d pre].
      * left. eauto.
      * right. exists pre, suf. rewrite append_cons in E. congruence.
Qed.

Lemma truthy_nonempty (s : string) : truthy s = true <-> s <> "".
Proof. destruct s; simpl; split; congruence. Qed.

Lemma strict_eq_iff (a b : string) : strict_eq a b = true <-> a = b.
Proof. apply String.eqb_eq. Qed.

Lemma strict_neq_iff (a b : string) : negb (strict_eq a b) = true <-> a <> b.
Proof. rewrite negb_true_iff. apply String.eqb_neq. Qed.

(** ** Consistent comparison functions *)

Section Order.
Context {A : Type} (cmp : A -> A -> number) (C : Consistent cmp).

Lemma tied_iff a b : tied cmp a b = true <-> (cmp a b == 0)%Q.
Proof. apply Qeq_bool_iff. Qed.

Lemma cmp_gt_lt a b : (0 < cmp a b)%Q -> (cmp b a < 0)%Q.
Proof.
  intros Hab.
  destruct (Q_dec (cmp b a) 0) as [[Hlt | Hgt] | Heq]; [exact Hlt | |].
  - pose proof (cmp_gt_trans cmp C _ _ _ Hab Hgt) as Haa.
    pose proof (cmp_refl cmp C a). lra.
  - pose proof (cmp_sym cmp C _ _ Heq). lra.
Qed.

Lemma cmp_lt_gt a b : (cmp a b < 0)%Q -> (0 < cmp b a)%Q.
Proof.
  intros Hab.
  destruct (Q_dec (cmp b a) 0) as [[Hlt | Hgt] | Heq]; [| exact Hgt |].
  - pose proof (cmp_lt_trans cmp C _ _ _ Hab Hlt) as Haa.
    pose proof (cmp_refl cmp C a). lra.
  - pose proof (cmp_sym cmp C _ _ Heq). lra.
Qed.

Lemma precedes_trans a b c :
  precedes cmp a b -> precedes cmp b c -> precedes cmp a c.
Proof.
  unfold precedes. intros Hab Hbc.
  destruct (Qlt_le_dec 0 (cmp a c)) as [Hac | Hac]; [exfalso | exact Hac].
  apply cmp_gt_lt in Hac.
  destruct (Q_dec (cmp a b) 0) as [[Hlt | Hgt] | Heq]; [| lra |].
  - pose proof (cmp_lt_trans cmp C _ _ _ Hac Hlt) as Hcb.
    apply cmp_lt_gt in Hcb. lra.
  - destruct (Q_dec (cmp b c) 0) as [[Hlt | Hgt] | Heq']; [| lra |].
    + pose proof (cmp_lt_trans cmp C _ _ _ Hlt Hac) as Hba.
      pose proof (cmp_sym cmp C _ _ Heq). lra.
    + pose proof (cmp_eq_trans cmp C _ _ _ Heq Heq') as Hz.
      pose proof (cmp_sym cmp C _ _ Hz). lra.
Qed.

Lemma precedes_both_tied a b :
  precedes cmp a b -> precedes cmp b a -> tied cmp a b = true.
Proof.
  unfold precedes. intros Hab Hba. apply tied_iff.
  destruct (Q_dec (cmp a b) 0) as [[Hlt | Hgt] | Heq]; [| lra | exact Heq].
  apply cmp_lt_gt in Hlt. lra.
Qed.

Lemma tied_refl a : tied cmp a a = true.
Proof. apply tied_iff, (cmp_refl cmp C). Qed.

Lemma tied_sym a b : tied cmp a b = true -> tied cmp b a = true.
Proof. rewrite !tied_iff. apply (cmp_sym cmp C). Qed.

Lemma tied_trans a b c :
  tied cmp a b = true -> tied cmp b c = true -> tied cmp a c = true.
Proof. rewrite !tied_iff. apply (cmp_eq_trans cmp C). Qed.

(** ** The sort *)

Lemma insert_Permutation x l : Permutation (x :: l) (insert cmp x l).
Proof.
  induction l as [|y l IH]; simpl; [reflexivity |].
  destruct (Qle_bool (cmp x y) 0); [reflexivity |].
  rewrite perm_swap. now apply perm_skip.
Qed.

Lemma sort_Permutation l : Permutation l (sort cmp l).
Proof.
  induction l as [|x l IH]; simpl; [constructor |].
  rewrite <- insert_Permutation. now apply perm_skip.
Qed.

Lemma insert_sorted x l :
  StronglySorted (precedes cmp) l -> StronglySorted (precedes cmp) (insert cmp x l).
Proof.
  induction 1 as [|y l Hl IH Hy]; simpl.
  - repeat constructor.
  - destruct (Qle_bool (cmp x y) 0) eqn:E.
    + apply Qle_bool_iff in E.
      constructor; [now constructor |].
      constructor; [exact E |].
      eapply List.Forall_impl; [| exact Hy].
      intros z Hz. now apply precedes_trans with y.
    + assert (Hyx : precedes cmp y x).
      { unfold precedes. apply Qlt_le_weak, cmp_gt_lt.
        apply Qnot_le_lt. intros Hle. apply Qle_bool_iff in Hle. congruence. }
      constructor; [exact IH |].
      eapply Permutation_Forall; [apply insert_Permutation |].
      now constructor.
Qed.

Lemma sort_sorted l : StronglySorted (precedes cmp) (sort cmp l).
Proof.
  induction l as [|x l IH]; simpl; [constructor | now apply insert_sorted].
Qed.

Lemma insert_tied k x l :
  List.filter (tied cmp k) (insert cmp x l) = List.filter (tied cmp k) (x :: l).
Proof.
  induction l as [|y l IH]; [reflexivity |].
  cbn [insert]. destruct (Qle_bool (cmp x y) 0) eqn:E; [reflexivity |].
  cbn [List.filter] in *. rewrite IH.
  destruct (tied cmp k x) eqn:Hx, (tied cmp k y) eqn:Hy; try reflexivity.
  exfalso.
  pose proof (tied_trans _ _ _ (tied_sym _ _ Hx) Hy) as Hxy.
  apply tied_iff in Hxy.
  assert (Hle : (cmp x y <= 0)%Q) by lra.
  apply Qle_bool_iff in Hle. congruence.
Qed.

(** Stability: the elements tied with any given [k] come out in the
    order they went in. *)
Lemma sort_stable k l :
  List.filter (tied cmp k) (sort cmp l) = List.filter (tied cmp k) l.
Proof.
  induction l as [|x l IH]; [reflexivity |].
  cbn [sort foldr]. rewrite insert_tied.
  cbn [List.filter]. fold (sort cmp l). now rewrite IH.
Qed.

Lemma insert_front x l :
  Forall (precedes cmp x) l -> insert cmp x l = x :: l.
Proof.
  destruct 1 as [|y l Hy _]; [reflexivity |].
  simpl. apply Qle_bool_iff in Hy. now rewrite Hy.
Qed.

(** A sorted list is left as it is. *)
Lemma sort_sorted_id l : StronglySorted (precedes cmp) l -> sort cmp l = l.
Proof.
  induction 1 as [|x l Hl IH Hx]; [reflexivity |].
  cbn [sort foldr]. fold (sort cmp l). rewrite IH. now apply insert_front.
Qed.

Lemma sort_idempotent l : sort cmp (sort cmp l) = sort cmp l.
Proof. apply sort_sorted_id, sort_sorted. Qed.

(** Two sorted lists with the same ties in the same order are equal: a
    stable sort has only one possible result. *)
Lemma sorted_stable_unique l1 l2 :
  StronglySorted (precedes cmp) l1 -> StronglySorted (precedes cmp) l2 ->
  (forall k, List.filter (tied cmp k) l1 = List.filter (tied cmp k) l2) ->
  l1 = l2.
Proof.
  intros S1. revert l2.
  induction S1 as [|a t1 St1 IH Ha]; intros l2 S2 Hk.
  - destruct l2 as [|b t2]; [reflexivity |].
    specialize (Hk b). cbn [List.filter] in Hk.
    rewrite tied_refl in Hk. discriminate.
  - destruct S2 as [|b t2 St2 Hb].
    { specialize (Hk a). cbn [List.filter] in Hk.
      rewrite tied_refl in Hk. discriminate. }
    assert (a = b) as <-.
    { pose proof (Hk a) as Hka. pose proof (Hk b) as Hkb.
      cbn [List.filter] in Hka, Hkb.
      rewrite tied_refl in Hka, Hkb.
      destruct (tied cmp a b) eqn:Eab; [congruence |].
      destruct (tied cmp b a) eqn:Eba.
      { apply tied_sym in Eba. congruence. }
      assert (In a t2) as Hin2.
      { apply (proj1 (filter_In (tied cmp a) a t2)).
        rewrite <- Hka. now left. }
      assert (In b t1) as Hin1.
      { apply (proj1 (filter_In (tied cmp b) b t1)).
        rewrite Hkb. now left. }
      rewrite Forall_forall in Ha, Hb.
      pose proof (precedes_both_tied a b (Ha b (proj2 (list_elem_of_In _ _) Hin1))
                    (Hb a (proj2 (list_elem_of_In _ _) Hin2))).
      congruence. }
    f_equal. apply IH; [exact St2 |].
    intros k. specialize (Hk k). cbn [List.filter] in Hk.
    destruct (tied cmp k a); congruence.
Qed.

Lemma sort_unique l l' :
  StronglySorted (precedes cmp) l' ->
  (forall k, List.filter (tied cmp k) l' = List.filter (tied cmp k) l) ->
  l' = sort cmp l.
Proof.
  intros S Hk. apply sorted_stable_unique; [exact S | apply sort_sorted |].
  intros k. now rewrite sort_stable.
Qed.

End Order.

End JSFacts.

(** * Arrays in the heap *)

Module HeapFacts.

Lemma fresh_unused (h : gmap loc (list Product)) : h !! fresh (dom h) = None.
Proof. apply not_elem_of_dom, is_fresh. Qed.

Lemma grows_refl w : grows w w.
Proof. split; auto. Qed.

Lemma grows_trans w1 w2 w3 : grows w1 w2 -> grows w2 w3 -> grows w1 w3.
Proof. intros [C1 H1] [C2 H2]. split; [congruence | auto]. Qed.

Lemma grows_unused w w' k : grows w w' -> heap w' !! k = None -> heap w !! k = None.
Proof.
  intros [_ G] N. destruct (heap w !! k) as [a|] eqn:E; [| reflexivity].
  apply G in E. congruence.
Qed.

Lemma alloc_grows a w r w' :
  alloc a w = (Returns r, w') ->
  grows w w' /\ heap w !! r = None /\ heap w' !! r = Some a.
Proof.
  unfold alloc. cbv zeta. intros [= <- <-].
  pose proof (fresh_unused (heap w)) as F.
  unfold grows. cbn [heap console].
  split; [split; [reflexivity |] |].
  - intros k b E. rewrite lookup_insert_ne; [exact E | congruence].
  - split; [exact F | apply lookup_insert_eq].
Qed.

Lemma alloc_returns a w :
  exists r w',
    alloc a w = (Returns r, w') /\
    grows w w' /\ heap w !! r = None /\ heap w' !! r = Some a.
Proof. eexists _, _. split; [reflexivity |]. now apply alloc_grows. Qed.

Lemma Array_filter_run f r P w :
  heap w !! r = Some P ->
  exists q w',
    Array_filter f (Arr r) w = (Returns (Arr q), w') /\
    grows w w' /\ heap w !! q = None /\ heap w' !! q = Some (List.filter f P).
Proof.
  intros E. unfold Array_filter, bind, read. rewrite E.
  destruct (alloc_returns (List.filter f P) w) as (q & w' & A & G).
  exists q, w'. rewrite A. split; [reflexivity | exact G].
Qed.

Lemma Array_sort_run cmp r P w :
  heap w !! r = Some P ->
  Array_sort cmp (Arr r) w =
    (Returns (Arr r),
     {| heap := <[r := sort cmp P]> (heap w); console := console w |}).
Proof. intros E. unfold Array_sort, bind, read, write. now rewrite E. Qed.

(** One guarded filter of the second effect. *)
Lemma guarded_filter_run (guard : bool) f v w l :
  holds w v l ->
  exists v' w',
    (if guard then Array_filter f v else ret v) w = (Returns v', w') /\
    grows w w' /\
    holds w' v' (if guard then List.filter f l else l) /\
    (if guard then forall q, v' = Arr q -> heap w !! q = None
     else v' = v /\ w' = w).
Proof.
  intros (r & -> & E). destruct guard.
  - destruct (Array_filter_run f r l w E) as (q & w' & R & G & N & L).
    exists (Arr q), w'. repeat split; try assumption; try apply G.
    + exists q. auto.
    + intros q' [= <-]. exact N.
  - exists (Arr r), w. repeat split; auto. exists r. auto.
Qed.

End HeapFacts.

(** * The filter/sort effect *)

Section PipelineFacts.
Context `{Engine}.
Import JSFacts HeapFacts.

(** ** The callbacks against the vocabulary *)

Lemma matchesSearch_spec term p : matchesSearch term p = true <-> searchHit term p.
Proof.
  unfold matchesSearch, searchHit, containsIgnoringCase.
  rewrite !orb_true_iff, !includes_spec. tauto.
Qed.

Lemma matchesCategory_spec c p : matchesCategory c p = true <-> category p = c.
Proof. apply strict_eq_iff. Qed.

Lemma matchesMetal_spec m p :
  matchesMetal m p = true <-> equalIgnoringCase (metal p) m.
Proof. apply strict_eq_iff. Qed.

Lemma filter_Retains (f : Product -> bool) (Q : Product -> Prop) P :
  (forall p, f p = true <-> Q p) -> Retains Q P (List.filter f P).
Proof.
  intros F. induction P as [|p P IH]; cbn [List.filter]; [constructor |].
  destruct (f p) eqn:E.
  - apply retains_keep; [now apply F | exact IH].
  - apply retains_drop; [| exact IH].
    intros HQ. apply F in HQ. congruence.
Qed.

Lemma Retains_In Q P out :
  Retains Q P out -> forall p, In p out <-> In p P /\ Q p.
Proof.
  induction 1 as [|q P out HQ R IH|q P out HQ R IH]; intros p; cbn [In].
  - tauto.
  - rewrite IH. split; [intros [<- | [? ?]]; auto | tauto].
  - rewrite IH. split; [tauto |]. intros [[<- | ?] ?]; [contradiction | auto].
Qed.

(** ** The comparison function *)

Lemma comparator_consistent key : Consistent (comparator key).
Proof.
  unfold comparator.
  destruct (strict_eq key "rating"); [| destruct (strict_eq key "reviews")].
  - split; intros; lra.
  - split; intros; lra.
  - destruct localeCompare_consistent as [R S E L G].
    split; intros; eauto.
Qed.

Lemma precedes_orderOf key a b :
  precedes (comparator key) a b <-> orderOf key a b.
Proof.
  unfold precedes, comparator, orderOf, strict_eq.
  destruct (String.eqb_spec key "rating") as [-> | N1].
  - rewrite decide_True by reflexivity. unfold ratingDescending. split; intros; lra.
  - rewrite decide_False by exact N1.
    destruct (String.eqb_spec key "reviews") as [-> | N2].
    + rewrite decide_True by reflexivity.
      unfold reviewsDescending. split; intros; lra.
    + rewrite decide_False by exact N2. reflexivity.
Qed.

Lemma StronglySorted_weaken {A} (R S : A -> A -> Prop) l :
  (forall a b, R a b -> S a b) -> StronglySorted R l -> StronglySorted S l.
Proof.
  intros RS. induction 1 as [|x l Hl IH Hx]; constructor; [exact IH |].
  eapply List.Forall_impl; [| exact Hx]. auto.
Qed.

Lemma sort_orderOf key l : StronglySorted (orderOf key) (sort (comparator key) l).
Proof.
  apply StronglySorted_weaken with (R := precedes (comparator key)).
  - intros a b. apply precedes_orderOf.
  - apply sort_sorted, comparator_consistent.
Qed.

(** ** One run of the effect *)

(** From a stored array [r] with elements [P], the effect ends normally
    with the displayed list set to an array [q] that holds
    [compute P ...].  With no filter switched on, [q] is [r] itself; with at
    least one, [q] is a new array and [r] keeps its elements. *)
Lemma pipeline_run s w r P :
  products s = Arr r -> heap w !! r = Some P ->
  exists q w',
    pipeline s w = (Returns (setFilteredProducts (Arr q) s), w') /\
    heap w' !! q =
      Some (compute P (searchTerm s) (selectedCategory s) (selectedMetal s)
              (sortBy s)) /\
    console w' = console w /\
    (if unfiltered s then q = r
     else heap w !! q = None /\ heap w' !! r = Some P).
Proof.
  intros Hp Hr. unfold pipeline, searchStep, categoryStep, metalStep,
    sortStep, compute, unfiltered. rewrite Hp.
  set (f1 := matchesSearch (searchTerm s)).
  set (f2 := matchesCategory (selectedCategory s)).
  set (f3 := matchesMetal (selectedMetal s)).
  set (g1 := truthy (searchTerm s)).
  set (g2 := negb (strict_eq (selectedCategory s) "all")).
  set (g3 := negb (strict_eq (selectedMetal s) "all")).
  assert (H0 : holds w (Arr r) P) by (exists r; auto).
  destruct (guarded_filter_run g1 f1 _ _ _ H0) as (v1 & w1 & R1 & G1 & H1 & F1).
  destruct (guarded_filter_run g2 f2 _ _ _ H1) as (v2 & w2 & R2 & G2 & H2 & F2).
  destruct (guarded_filter_run g3 f3 _ _ _ H2) as (v3 & w3 & R3 & G3 & H3 & F3).
  destruct H3 as (q & -> & L3).
  unfold bind at 1. rewrite R1. unfold bind at 1. rewrite R2.
  unfold bind at 1. rewrite R3. unfold bind at 1.
  rewrite (Array_sort_run _ q _ w3 L3). unfold ret.
  eexists q, _. split; [reflexivity |]. cbn [heap console].
  split; [apply lookup_insert_eq |].
  pose proof (grows_trans _ _ _ G1 (grows_trans _ _ _ G2 G3)) as G.
  split; [apply G |].
  replace (strict_eq (selectedCategory s) "all") with (negb g2)
    by apply negb_involutive.
  replace (strict_eq (selectedMetal s) "all") with (negb g3)
    by apply negb_involutive.
  assert (Fresh : g1 || g2 || g3 = true -> heap w !! q = None).
  { destruct g3.
    - intros _. eapply grows_unused; [exact (grows_trans _ _ _ G1 G2) | auto].
    - destruct F3 as [<- ->]. destruct g2.
      + intros _. eapply grows_unused; [exact G1 | auto].
      + destruct F2 as [<- ->]. destruct g1; [auto | discriminate]. }
  destruct g1, g2, g3; cbn [negb andb orb] in *;
    try (specialize (Fresh eq_refl); split; [exact Fresh |];
         rewrite lookup_insert_ne by congruence; now apply G).
  destruct F1 as [-> _], F2 as [-> _], F3 as [E _]. congruence.
Qed.

End PipelineFacts.

(** * The claims of the specification *)

Section Claims.
Context `{Engine}.
Import JSFacts HeapFacts.

(** ** The store under the effect *)

(** With no filter switched on, [filtered] is still the stored array when
    [sort] runs: the stored array is reordered and becomes the displayed
    list. *)
Lemma pipeline_unfiltered_in_place s w r P :
  unfiltered s = true -> products s = Arr r -> heap w !! r = Some P ->
  pipeline s w =
    (Returns (setFilteredProducts (Arr r) s),
     {| heap := <[r := sort (comparator (sortBy s)) P]> (heap w);
        console := console w |}).
Proof.
  unfold unfiltered. rewrite !andb_true_iff, negb_true_iff.
  intros [[E1 E2] E3] Hp Hr.
  unfold pipeline, searchStep, categoryStep, metalStep, sortStep.
  rewrite E1, E2, E3, Hp. cbn [negb]. unfold bind at 1 2 3 4, ret.
  now rewrite (Array_sort_run _ r P w Hr).
Qed.

(** With a filter switched on, the stored array is left as it was and the
    displayed list is another array. *)
Lemma pipeline_filtered_preserves_store s w :
  unfiltered s = false -> storeUntouched s w.
Proof.
  intros U r P s' w' Hp Hr Run.
  destruct (pipeline_run s w r P Hp Hr) as (q & w1 & R & _ & _ & F).
  rewrite U in F. destruct F as [N K].
  rewrite R in Run. injection Run as <- <-.
  split; [exact K |]. cbn. intros [= ->]. congruence.
Qed.

(** A stored value that is not an array stops the effect at the first
    array method it reaches. *)
Lemma pipeline_throws_on_non_array s w :
  products s = NonArr -> pipeline s w = (Throws NotAFunction, w).
Proof.
  intros Hp. unfold pipeline, searchStep, categoryStep, metalStep, sortStep.
  rewrite Hp.
  destruct (truthy (searchTerm s)); [reflexivity |].
  destruct (negb (strict_eq (selectedCategory s) "all")); [reflexivity |].
  destruct (negb (strict_eq (selectedMetal s) "all")); reflexivity.
Qed.

(** ** The request *)

(** A response with a JSON body is stored as received, whatever its
    status and whether or not it is an array; nothing is logged. *)
Lemma answered_json_is_stored st j s w :
  exists v w',
    fetchProducts (Answered {| status := st; payload := Json j |}) s w =
      (Returns (setFilteredProducts v (setProducts v s)), w') /\
    console w' = console w /\
    match j with
    | JProducts items => holds w' v items
    | JOther => v = NonArr
    end.
Proof.
  destruct j as [items |].
  - eexists _, _. split; [reflexivity |]. split; [reflexivity |].
    eexists. split; [reflexivity |]. apply lookup_insert_eq.
  - eexists _, _. split; [reflexivity |]. split; reflexivity.
Qed.

(** The [catch] path: when the request throws, because no response
    arrives or because the body is not JSON, the stored list and the
    displayed list both become empty arrays, the error goes to the
    console, and [fetchProducts] itself ends normally. *)
Theorem rejected_fetch_gives_empty_catalog net s w :
  rejected net -> emptyCatalogLogged net s w.
Proof.
  intros Rj. unfold emptyCatalogLogged.
  assert (exists e, forall k : error -> M State,
             try_catch
               (response <- fetch net ;;
                data <- Response_json response ;;
                ret (setFilteredProducts data (setProducts data s))) k w
             = k e w) as [e Catch].
  { destruct net as [| [st b]].
    - exists NetworkFailure. reflexivity.
    - cbn in Rj. subst b. exists JsonSyntaxError. reflexivity. }
  unfold fetchProducts. rewrite Catch.
  unfold bind at 1, console_error at 1.
  set (w1 := {| heap := heap w;
                console := (console w ++ [("Failed to fetch products:", e)])%list |}).
  destruct (alloc_returns [] w1) as (a & w2 & A1 & G1 & _ & L1).
  destruct (alloc_returns [] w2) as (b & w3 & A2 & G2 & _ & L2).
  unfold bind at 1. rewrite A1. unfold bind at 1. rewrite A2. unfold ret.
  eexists _, w3, e. split; [reflexivity |].
  split; [| split].
  - exists a. split; [reflexivity | now apply G2].
  - exists b. split; [reflexivity | exact L2].
  - destruct G1 as [C1 _], G2 as [C2 _]. now rewrite C2, C1.
Qed.

(** ** The filters *)

(** [v.filter(f)] builds an array that keeps exactly what [f] accepts and
    leaves [v] as it was. *)
Lemma Array_filter_retains (f : Product -> bool) (Q : Product -> Prop) v w P :
  (forall p, f p = true <-> Q p) -> holds w v P ->
  exists v' w' out,
    Array_filter f v w = (Returns v', w') /\
    holds w' v' out /\ holds w' v P /\
    Retains Q P out /\
    (forall p, In p P -> (In p out <-> Q p)).
Proof.
  intros F (r & -> & E).
  destruct (Array_filter_run f r P w E) as (q & w' & R & G & N & L).
  exists (Arr q), w', (List.filter f P).
  split; [exact R |]. split; [exists q; auto |].
  split; [exists r; split; [reflexivity | now apply G] |].
  pose proof (filter_Retains f Q P F) as K.
  split; [exact K |].
  intros p Hin. rewrite (Retains_In _ _ _ K). tauto.
Qed.

(** C4: with a non-empty search term, the search step keeps a product
    exactly when its name, its category or its description contains the
    term, letter case set aside; a product left out contains it in none of
    the three. *)
Theorem searchStep_retains_hits term v w P :
  term <> "" -> holds w v P ->
  exists v' w' out,
    searchStep term v w = (Returns v', w') /\
    holds w' v' out /\ holds w' v P /\
    Retains (searchHit term) P out /\
    (forall p, In p P -> (In p out <-> searchHit term p)).
Proof.
  intros T Hv. unfold searchStep.
  rewrite (proj2 (truthy_nonempty term) T).
  apply Array_filter_retains; [apply matchesSearch_spec | exact Hv].
Qed.

(** C5: with a category other than "all", the category step keeps exactly
    the products whose category is that very string. *)
Theorem categoryStep_retains_equal c v w P :
  c <> "all" -> holds w v P ->
  exists v' w' out,
    categoryStep c v w = (Returns v', w') /\
    holds w' v' out /\ holds w' v P /\
    Retains (fun p => category p = c) P out /\
    (forall p, In p P -> (In p out <-> category p = c)).
Proof.
  intros T Hv. unfold categoryStep.
  rewrite (proj2 (strict_neq_iff c "all") T).
  apply Array_filter_retains; [apply matchesCategory_spec | exact Hv].
Qed.

(** C6: with a metal other than "all", the metal step keeps exactly the
    products whose metal, lower-cased, is the selected metal lower-cased:
    the whole string has to agree, not a part of it. *)
Theorem metalStep_retains_equal_ignoring_case m v w P :
  m <> "all" -> holds w v P ->
  exists v' w' out,
    metalStep m v w = (Returns v', w') /\
    holds w' v' out /\ holds w' v P /\
    Retains (fun p => toLowerCase (metal p) = toLowerCase m) P out /\
    (forall p, In p P -> (In p out <-> toLowerCase (metal p) = toLowerCase m)).
Proof.
  intros T Hv. unfold metalStep.
  rewrite (proj2 (strict_neq_iff m "all") T).
  apply Array_filter_retains; [apply matchesMetal_spec | exact Hv].
Qed.

(** ** The sort *)

(** C3: with an empty search term and both selectors on "all", the
    displayed list is a permutation of the stored one, in the order of
    the sort key. *)
Theorem unfiltered_output_sorted_permutation s w r P :
  products s = Arr r -> heap w !! r = Some P ->
  searchTerm s = "" -> selectedCategory s = "all" -> selectedMetal s = "all" ->
  exists s' w' out,
    pipeline s w = (Returns s', w') /\
    holds w' (filteredProducts s') out /\
    Permutation P out /\
    StronglySorted (orderOf (sortBy s)) out.
Proof.
  intros Hp Hr E1 E2 E3.
  assert (U : unfiltered s = true).
  { unfold unfiltered. now rewrite E1, E2, E3. }
  rewrite (pipeline_unfiltered_in_place s w r P U Hp Hr).
  eexists _, _, (sort (comparator (sortBy s)) P). split; [reflexivity |].
  split; [exists r; split; [reflexivity | apply lookup_insert_eq] |].
  split; [apply sort_Permutation | apply sort_orderOf].
Qed.

Lemma sortStep_run key v w l :
  holds w v l ->
  exists w',
    sortStep key v w = (Returns v, w') /\
    holds w' v (sort (comparator key) l).
Proof.
  intros (r & -> & E). unfold sortStep.
  rewrite (Array_sort_run _ r l w E). eexists. split; [reflexivity |].
  exists r. split; [reflexivity | apply lookup_insert_eq].
Qed.

(** C7: the sort step rearranges the array it is given, by falling rating
    for "rating", by falling number of reviews for "reviews", and by
    rising name under [localeCompare] for "name" and for every other
    key. *)
Theorem sortStep_orders key v w l :
  holds w v l ->
  exists w' out,
    sortStep key v w = (Returns v, w') /\
    holds w' v out /\
    Permutation l out /\
    (key = "rating" -> StronglySorted ratingDescending out) /\
    (key = "reviews" -> StronglySorted reviewsDescending out) /\
    (key <> "rating" -> key <> "reviews" -> StronglySorted nameAscending out).
Proof.
  intros Hv. destruct (sortStep_run key v w l Hv) as (w' & R & Hout).
  exists w', (sort (comparator key) l).
  split; [exact R |]. split; [exact Hout |].
  split; [apply sort_Permutation |].
  pose proof (sort_orderOf key l) as S. unfold orderOf in S.
  repeat split.
  - intros ->. exact S.
  - intros ->. exact S.
  - intros N1 N2. now rewrite !decide_False in S.
Qed.

(** C8: the sort step is stable: the products that tie with any given
    product under the comparison function of the key stand in the sorted
    array in the order they had before. *)
Theorem sortStep_stable key v w l :
  holds w v l ->
  exists w' out,
    sortStep key v w = (Returns v, w') /\
    holds w' v out /\
    forall p,
      List.filter (tied (comparator key) p) out =
      List.filter (tied (comparator key) p) l.
Proof.
  intros Hv. destruct (sortStep_run key v w l Hv) as (w' & R & Hout).
  exists w', (sort (comparator key) l).
  split; [exact R |]. split; [exact Hout |].
  intros p. apply sort_stable, comparator_consistent.
Qed.

(** C9: sorting a second time with the same key changes nothing, on the
    list and on the array in the heap. *)
Theorem sortStep_idempotent key :
  (forall l,
      sort (comparator key) (sort (comparator key) l) =
      sort (comparator key) l) /\
  (forall v w,
      (v' <- sortStep key v ;; sortStep key v') w = sortStep key v w).
Proof.
  pose proof (comparator_consistent key) as C.
  split; [intros l; now apply sort_idempotent |].
  intros [r |] w; [| reflexivity].
  unfold sortStep, Array_sort, bind, read, write, ret.
  destruct (heap w !! r) as [l |] eqn:E; [| reflexivity].
  cbn [heap console]. rewrite lookup_insert_eq. cbn [heap console].
  now rewrite insert_insert_eq, sort_idempotent.
Qed.

(** ** The reset control *)

(** C10: "Clear All Filters" empties the search term and puts both
    selectors back on "all"; the sort key and the stored list stay as they
    are. *)
Theorem clearAllFilters_frame s :
  searchTerm (clearAllFilters s) = "" /\
  selectedCategory (clearAllFilters s) = "all" /\
  selectedMetal (clearAllFilters s) = "all" /\
  sortBy (clearAllFilters s) = sortBy s /\
  products (clearAllFilters s) = products s /\
  filteredProducts (clearAllFilters s) = filteredProducts s.
Proof. repeat split. Qed.

(** The run of the effect that follows the reset is an unfiltered one: it
    sorts the stored array by the key that is still selected. *)
Lemma clearAllFilters_then_pipeline s w r P :
  products s = Arr r -> heap w !! r = Some P ->
  pipeline (clearAllFilters s) w =
    (Returns (setFilteredProducts (Arr r) (clearAllFilters s)),
     {| heap := <[r := sort (comparator (sortBy s)) P]> (heap w);
        console := console w |}).
Proof.
  intros Hp Hr.
  now rewrite (pipeline_unfiltered_in_place (clearAllFilters s) w r P).
Qed.

End Claims.

(** * Runs on the sample catalog *)

Import Sample.

(** The scenarios of the specification, on the list the effect derives. *)

Example scenario_search :
  compute [goldRing; silverBand] "ring" "all" "all" "name" = [goldRing; silverBand].
Proof. vm_compute. reflexivity. Qed.

Example scenario_search_name_only :
  compute [goldRing; silverBand] "gold r" "all" "all" "name" = [goldRing].
Proof. vm_compute. reflexivity. Qed.

Example scenario_category_by_rating :
  compute [goldRing; silverBand] "" "Rings" "all" "rating" = [silverBand; goldRing].
Proof. vm_compute. reflexivity. Qed.

Example scenario_metal :
  compute [goldRing; silverBand] "" "all" "gold" "name" = [goldRing].
Proof. vm_compute. reflexivity. Qed.

Example scenario_ties_keep_their_order :
  compute [goldRing; silverBand; pearlPendant] "" "all" "all" "rating" =
    [silverBand; goldRing; pearlPendant] /\
  compute [pearlPendant; silverBand; goldRing] "" "all" "all" "rating" =
    [silverBand; pearlPendant; goldRing].
Proof. split; vm_compute; reflexivity. Qed.

(** C1: the stored list is not safe from the effect.  With the default
    filter state nothing is filtered, [filtered] is the stored array, and
    [sort] reorders it: the store [silverBand; goldRing] comes out as
    [goldRing; silverBand], and the displayed list is that same array. *)
Theorem pipeline_reorders_store_in_place :
  pipeline defaults (store [silverBand; goldRing]) =
    (Returns defaults, store [goldRing; silverBand]) /\
  ~ storeUntouched defaults (store [silverBand; goldRing]).
Proof.
  assert (Run : pipeline defaults (store [silverBand; goldRing]) =
                  (Returns defaults, store [goldRing; silverBand])).
  { vm_compute. reflexivity. }
  split; [exact Run |].
  intros U.
  destruct (U 1%positive [silverBand; goldRing] _ _ eq_refl eq_refl Run) as [K _].
  vm_compute in K. discriminate K.
Qed.

(** C2: a failed request does not always end in an empty catalog.  A 500
    answer that carries a JSON error object is a failed request, yet
    [fetchProducts] never reaches its fallback: it stores the object as the
    product list and as the displayed list and logs nothing, and the
    rendering that follows throws. *)
Theorem server_error_is_stored :
  failed serverError /\
  fetchProducts serverError defaults (store []) =
    (Returns (setFilteredProducts NonArr (setProducts NonArr defaults)),
     store []) /\
  render (setFilteredProducts NonArr (setProducts NonArr defaults)) (store []) =
    (Throws NotAFunction, store []) /\
  ~ emptyCatalogLogged serverError defaults (store []).
Proof.
  split; [left; unfold success; cbn; lia |].
  split; [reflexivity |]. split; [reflexivity |].
  intros (s' & w' & e & Run & (r & Hr & _) & _).
  vm_compute in Run. injection Run as <- <-. discriminate Hr.
Qed.

Lemma rejected_fetch_gives_empty_catalog_witness :
  rejected (Answered {| status := 200; payload := Malformed |}) /\
  emptyCatalogLogged (Answered {| status := 200; payload := Malformed |})
    defaults (store [goldRing]).
Proof.
  split; [reflexivity |].
  apply rejected_fetch_gives_empty_catalog. reflexivity.
Defined.

Lemma unfiltered_output_sorted_permutation_witness :
  exists s' w' out,
    pipeline defaults (store [silverBand; goldRing]) = (Returns s', w') /\
    holds w' (filteredProducts s') out /\
    Permutation [silverBand; goldRing] out /\
    StronglySorted (orderOf (sortBy defaults)) out.
Proof.
  apply (unfiltered_output_sorted_permutation defaults
           (store [silverBand; goldRing]) 1%positive [silverBand; goldRing]);
    reflexivity.
Defined.

Lemma searchStep_retains_hits_witness :
  exists v' w' out,
    searchStep "gold" (Arr 1%positive) (store [goldRing; silverBand]) =
      (Returns v', w') /\
    holds w' v' out /\
    holds w' (Arr 1%positive) [goldRing; silverBand] /\
    Retains (searchHit "gold") [goldRing; silverBand] out /\
    (forall p, In p [goldRing; silverBand] -> (In p out <-> searchHit "gold" p)).
Proof.
  apply searchStep_retains_hits.
  - discriminate.
  - exists 1%positive. split; reflexivity.
Defined.

Lemma categoryStep_retains_equal_witness :
  exists v' w' out,
    categoryStep "Rings" (Arr 1%positive) (store [goldRing; silverBand]) =
      (Returns v', w') /\
    holds w' v' out /\
    holds w' (Arr 1%positive) [goldRing; silverBand] /\
    Retains (fun p => category p = "Rings") [goldRing; silverBand] out /\
    (forall p, In p [goldRing; silverBand] -> (In p out <-> category p = "Rings")).
Proof.
  apply categoryStep_retains_equal.
  - discriminate.
  - exists 1%positive. split; reflexivity.
Defined.

Lemma metalStep_retains_equal_ignoring_case_witness :
  exists v' w' out,
    metalStep "gold" (Arr 1%positive) (store [goldRing; silverBand]) =
      (Returns v', w') /\
    holds w' v' out /\
    holds w' (Arr 1%positive) [goldRing; silverBand] /\
    Retains (fun p => toLowerCase (metal p) = toLowerCase "gold")
      [goldRing; silverBand] out /\
    (forall p, In p [goldRing; silverBand] ->
               (In p out <-> toLowerCase (metal p) = toLowerCase "gold")).
Proof.
  apply metalStep_retains_equal_ignoring_case.
  - discriminate.
  - exists 1%positive. split; reflexivity.
Defined.

Lemma sortStep_orders_witness :
  exists w' out,
    sortStep "rating" (Arr 1%positive) (store [goldRing; silverBand]) =
      (Returns (Arr 1%positive), w') /\
    holds w' (Arr 1%positive) out /\
    Permutation [goldRing; silverBand] out /\
    ("rating" = "rating" -> StronglySorted ratingDescending out) /\
    ("rating" = "reviews" -> StronglySorted reviewsDescending out) /\
    ("rating" <> "rating" -> "rating" <> "reviews" ->
     StronglySorted nameAscending out).
Proof.
  apply sortStep_orders. exists 1%positive. split; reflexivity.
Defined.

Lemma sortStep_stable_witness :
  exists w' out,
    sortStep "reviews" (Arr 1%positive) (store [goldRing; silverBand; goldRing]) =
      (Returns (Arr 1%positive), w') /\
    holds w' (Arr 1%positive) out /\
    forall p,
      List.filter (tied (comparator "reviews") p) out =
      List.filter (tied (comparator "reviews") p) [goldRing; silverBand; goldRing].
Proof.
  apply sortStep_stable. exists 1%positive. split; reflexivity.
Defined.

(** * The page as a whole *)

Section PageFacts.
Context `{Engine}.
Import JSFacts HeapFacts.

(** ** The derived list *)

Lemma filter_filter {A} (f g : A -> bool) l :
  List.filter f (List.filter g l) = List.filter (fun x => g x && f x) l.
Proof.
  induction l as [|x l IH]; [reflexivity |].
  cbn [List.filter]. destruct (g x); cbn [List.filter andb]; now rewrite IH.
Qed.

Lemma guarded_filter_eq {A} (guard : bool) (f : A -> bool) l :
  (if guard then List.filter f l else l) =
  List.filter (fun x => negb guard || f x) l.
Proof.
  destruct guard; cbn [negb orb]; [reflexivity |].
  induction l as [|x l IH]; [reflexivity |]. cbn [List.filter]. now rewrite <- IH.
Qed.

Lemma compute_keeps P term c m key :
  compute P term c m key =
  sort (comparator key) (List.filter (keeps term c m) P).
Proof.
  unfold compute. f_equal.
  rewrite (guarded_filter_eq (truthy term)).
  rewrite (guarded_filter_eq (negb (strict_eq c "all"))).
  rewrite (guarded_filter_eq (negb (strict_eq m "all"))).
  rewrite !filter_filter. apply List.filter_ext.
  intros p. unfold keeps. now rewrite !negb_involutive, andb_assoc.
Qed.

Lemma keeps_passes term c m p : keeps term c m p = true <-> passes term c m p.
Proof.
  unfold keeps, passes.
  rewrite !andb_true_iff, !orb_true_iff, negb_true_iff.
  rewrite matchesSearch_spec, matchesCategory_spec, !strict_eq_iff.
  unfold matchesMetal. rewrite strict_eq_iff.
  assert (truthy term = false <-> term = "") as ->.
  { destruct term; simpl; split; congruence. }
  tauto.
Qed.

Lemma compute_In P term c m key p :
  In p (compute P term c m key) <-> In p P /\ passes term c m p.
Proof.
  rewrite compute_keeps, <- keeps_passes, <- filter_In.
  pose proof (sort_Permutation (comparator key)
                (List.filter (keeps term c m) P)) as S.
  split; intros Hin.
  - eapply Permutation_in; [symmetry; exact S | exact Hin].
  - eapply Permutation_in; [exact S | exact Hin].
Qed.

Lemma compute_nil term c m key : compute [] term c m key = [].
Proof. rewrite compute_keeps. reflexivity. Qed.

Lemma compute_unfiltered s P :
  unfiltered s = true ->
  compute P (searchTerm s) (selectedCategory s) (selectedMetal s) (sortBy s) =
  sort (comparator (sortBy s)) P.
Proof.
  unfold unfiltered, compute. rewrite !andb_true_iff, negb_true_iff.
  intros [[-> ->] ->]. reflexivity.
Qed.

Lemma NoDup_map_filter {A B} (g : A -> B) (f : A -> bool) l :
  NoDup (map g l) -> NoDup (map g (List.filter f l)).
Proof.
  induction l as [|x l IH]; [auto |].
  cbn [map List.filter]. rewrite NoDup_cons. intros [Nin Nd].
  destruct (f x); [| auto].
  cbn [map]. rewrite NoDup_cons. split; [| auto].
  intros Hin. apply Nin.
  apply list_elem_of_In in Hin. apply list_elem_of_In.
  apply in_map_iff in Hin as (y & <- & Hy).
  apply in_map. now apply filter_In in Hy.
Qed.

(** ** The second effect *)

Lemma pipeline_returns_update s w s' w' :
  pipeline s w = (Returns s', w') -> exists v, s' = setFilteredProducts v s.
Proof.
  unfold pipeline. unfold bind at 1.
  destruct (searchStep _ _ w) as [[v1 | e1] w1]; [| discriminate].
  unfold bind at 1.
  destruct (categoryStep _ _ w1) as [[v2 | e2] w2]; [| discriminate].
  unfold bind at 1.
  destruct (metalStep _ _ w2) as [[v3 | e3] w3]; [| discriminate].
  unfold bind at 1.
  destruct (sortStep _ _ w3) as [[v4 | e4] w4]; [| discriminate].
  unfold ret. intros [= <- <-]. eauto.
Qed.

Lemma pipeline_dangling s w r :
  products s = Arr r -> heap w !! r = None ->
  pipeline s w = (Throws Dangling, w).
Proof.
  intros Hp N.
  unfold pipeline, searchStep, categoryStep, metalStep, sortStep.
  rewrite Hp.
  destruct (truthy (searchTerm s)),
    (negb (strict_eq (selectedCategory s) "all")),
    (negb (strict_eq (selectedMetal s) "all"));
    unfold bind, Array_filter, Array_sort, bind, read, ret; now rewrite N.
Qed.

(** The effect ends normally only on a stored array. *)
Lemma pipeline_returns_store s w s' w' :
  pipeline s w = (Returns s', w') ->
  exists r P, products s = Arr r /\ heap w !! r = Some P.
Proof.
  intros Run. destruct (products s) as [r |] eqn:Hp.
  - destruct (heap w !! r) as [P |] eqn:E; [eauto |].
    rewrite (pipeline_dangling s w r Hp E) in Run. discriminate.
  - rewrite (pipeline_throws_on_non_array s w Hp) in Run. discriminate.
Qed.

(** One run of the effect, with what it leaves alone: the console, and
    every array but the stored one. *)
Lemma pipeline_run_frame s w r P :
  products s = Arr r -> heap w !! r = Some P ->
  exists q w',
    pipeline s w = (Returns (setFilteredProducts (Arr q) s), w') /\
    heap w' !! q =
      Some (compute P (searchTerm s) (selectedCategory s) (selectedMetal s)
              (sortBy s)) /\
    console w' = console w /\
    (forall k a, k <> r -> heap w !! k = Some a -> heap w' !! k = Some a) /\
    (if unfiltered s
     then q = r
     else heap w !! q = None /\ heap w' !! r = Some P).
Proof.
  intros Hp Hr.
  destruct (unfiltered s) eqn:U.
  - exists r. eexists.
    split; [apply (pipeline_unfiltered_in_place s w r P U Hp Hr) |].
    cbn [heap console]. rewrite (compute_unfiltered s P U).
    split; [apply lookup_insert_eq |]. split; [reflexivity |].
    split; [| reflexivity].
    intros k a Hk E. now rewrite lookup_insert_ne.
  - destruct (pipeline_run s w r P Hp Hr) as (q & w' & R & L & Cn & F).
    rewrite U in F. destruct F as [N K].
    exists q, w'. split; [exact R |]. split; [exact L |].
    split; [exact Cn |]. split; [| split; assumption].
    intros k a Hk E.
    (* the arrays of [w] are below every write of a filtered run *)
    revert R. unfold pipeline, searchStep, categoryStep, metalStep, sortStep.
    rewrite Hp.
    set (f1 := matchesSearch (searchTerm s)).
    set (f2 := matchesCategory (selectedCategory s)).
    set (f3 := matchesMetal (selectedMetal s)).
    set (g1 := truthy (searchTerm s)).
    set (g2 := negb (strict_eq (selectedCategory s) "all")).
    set (g3 := negb (strict_eq (selectedMetal s) "all")).
    assert (H0 : holds w (Arr r) P) by (exists r; auto).
    destruct (guarded_filter_run g1 f1 _ _ _ H0) as (v1 & w1 & R1 & G1 & H1 & _).
    destruct (guarded_filter_run g2 f2 _ _ _ H1) as (v2 & w2 & R2 & G2 & H2 & _).
    destruct (guarded_filter_run g3 f3 _ _ _ H2) as (v3 & w3 & R3 & G3 & H3 & _).
    destruct H3 as (q' & -> & L3).
    unfold bind at 1. rewrite R1. unfold bind at 1. rewrite R2.
    unfold bind at 1. rewrite R3. unfold bind at 1.
    rewrite (Array_sort_run _ q' _ w3 L3). unfold ret.
    intros [= <- <-]. cbn [heap].
    rewrite lookup_insert_ne by congruence.
    now apply G3, G2, G1.
Qed.

(** ** The first effect *)

Lemma fetch_rejected_run net s w :
  rejected net ->
  exists a b w' e,
    fetchProducts net s w =
      (Returns (setFilteredProducts (Arr b) (setProducts (Arr a) s)), w') /\
    heap w' !! a = Some [] /\ heap w' !! b = Some [] /\
    console w' = (console w ++ [("Failed to fetch products:", e)])%list /\
    (forall k l, heap w !! k = Some l -> heap w' !! k = Some l).
Proof.
  intros Rj.
  assert (exists e, forall k : error -> M State,
             try_catch
               (response <- fetch net ;;
                data <- Response_json response ;;
                ret (setFilteredProducts data (setProducts data s))) k w
             = k e w) as [e Catch].
  { destruct net as [| [st b]].
    - exists NetworkFailure. reflexivity.
    - cbn in Rj. subst b. exists JsonSyntaxError. reflexivity. }
  unfold fetchProducts. rewrite Catch.
  unfold bind at 1, console_error at 1.
  set (w1 := {| heap := heap w;
                console := (console w ++ [("Failed to fetch products:", e)])%list |}).
  destruct (alloc_returns [] w1) as (a & w2 & A1 & G1 & _ & L1).
  destruct (alloc_returns [] w2) as (b & w3 & A2 & G2 & _ & L2).
  unfold bind at 1. rewrite A1. unfold bind at 1. rewrite A2. unfold ret.
  exists a, b, w3, e. split; [reflexivity |].
  split; [now apply G2 |]. split; [exact L2 |].
  destruct G1 as [C1 M1], G2 as [C2 M2].
  split; [now rewrite C2, C1 |].
  intros k l E. apply M2, M1. exact E.
Qed.

Lemma fetch_array_run st items s w :
  exists a w',
    fetchProducts (Answered {| status := st; payload := Json (JProducts items) |})
      s w =
      (Returns (setFilteredProducts (Arr a) (setProducts (Arr a) s)), w') /\
    grows w w' /\ heap w !! a = None /\ heap w' !! a = Some items.
Proof.
  destruct (alloc_returns items w) as (a & w' & A & G).
  exists a, w'. split; [| exact G].
  cbv [fetchProducts try_catch fetch Response_json payload bind ret].
  now rewrite A.
Qed.

Lemma fetch_other_run st s w :
  fetchProducts (Answered {| status := st; payload := Json JOther |}) s w =
    (Returns (setFilteredProducts NonArr (setProducts NonArr s)), w).
Proof. reflexivity. Qed.

Lemma init_run w0 :
  exists a b w,
    CatalogPage_init w0 =
      (Returns {| products := Arr a; filteredProducts := Arr b;
                  searchTerm := ""; selectedCategory := "all";
                  selectedMetal := "all"; sortBy := "name" |}, w) /\
    heap w !! a = Some [] /\ heap w !! b = Some [] /\ a <> b /\
    grows w0 w.
Proof.
  destruct (alloc_returns [] w0) as (a & w1 & A1 & G1 & N1 & L1).
  destruct (alloc_returns [] w1) as (b & w2 & A2 & G2 & N2 & L2).
  exists a, b, w2. unfold CatalogPage_init.
  unfold bind at 1. rewrite A1. unfold bind at 1. rewrite A2.
  split; [reflexivity |].
  split; [now apply G2 |]. split; [exact L2 |].
  split; [congruence | now apply grows_trans with w1].
Qed.

Lemma render_run s w F :
  holds w (filteredProducts s) F ->
  render s w =
    (Returns {| navigation := renderNavigation s;
                cards := map renderCard F;
                noResultsPanel := match F with [] => true | _ :: _ => false end |},
     w).
Proof.
  intros (r & E & L). unfold render. rewrite E.
  unfold bind, read. now rewrite L.
Qed.

(** ** One event at a time *)

Lemma run_cons e es s w :
  run (e :: es) s w =
  match handle e s w with
  | (Returns s', w') => run es s' w'
  | (Throws x, w') => (Throws x, w')
  end.
Proof. reflexivity. Qed.

Lemma holds_unique w v l1 l2 : holds w v l1 -> holds w v l2 -> l1 = l2.
Proof. intros (r1 & -> & E1) (r2 & [= <-] & E2). congruence. Qed.

(** The effect on a stored array: it ends normally, the store keeps its
    elements up to their order, and the displayed list is what [compute]
    says. *)
Lemma effect_on_store s w P :
  holds w (products s) P ->
  exists q w' P',
    pipeline s w = (Returns (setFilteredProducts (Arr q) s), w') /\
    holds w' (products s) P' /\ Permutation P P' /\
    heap w' !! q =
      Some (compute P (searchTerm s) (selectedCategory s) (selectedMetal s)
              (sortBy s)) /\
    console w' = console w /\
    (unfiltered s = true -> holds w' (products s) (sort (comparator (sortBy s)) P)) /\
    (unfiltered s = false -> P' = P).
Proof.
  intros (r & Hp & Hr).
  destruct (pipeline_run_frame s w r P Hp Hr) as (q & w' & R & L & Cn & _ & F).
  destruct (unfiltered s) eqn:U.
  - subst q.
    assert (Hs : holds w' (products s) (sort (comparator (sortBy s)) P)).
    { exists r. split; [exact Hp |]. now rewrite <- (compute_unfiltered s P U). }
    exists r, w', (sort (comparator (sortBy s)) P).
    split; [exact R |]. split; [exact Hs |].
    split; [apply sort_Permutation |].
    split; [exact L |]. split; [exact Cn |].
    split; [intros _; exact Hs | discriminate].
  - destruct F as [N K]. exists q, w', P.
    split; [exact R |]. split; [exists r; auto |].
    split; [reflexivity |].
    split; [exact L |]. split; [exact Cn |].
    split; [discriminate | reflexivity].
Qed.

Lemma handle_user_store e s w P :
  userEvent e -> holds w (products s) P ->
  exists s' w' P',
    handle e s w = (Returns s', w') /\
    holds w' (products s') P' /\ Permutation P P'.
Proof.
  intros Ue Hs. destruct e as [net | entry | |]; cbn [handle].
  - destruct Ue.
  - exists (setSelectedCategory (Category.value entry) s), w, P.
    repeat split; [exact Hs | reflexivity].
  - exists (clearAllFilters s), w, P. repeat split; [exact Hs | reflexivity].
  - destruct (effect_on_store s w P Hs) as (q & w' & P' & R & Hs' & Pm & _).
    exists (setFilteredProducts (Arr q) s), w', P'. auto.
Qed.

Lemma handle_user_empty e s w :
  userEvent e ->
  holds w (products s) [] -> holds w (filteredProducts s) [] ->
  exists s' w',
    handle e s w = (Returns s', w') /\
    holds w' (products s') [] /\ holds w' (filteredProducts s') [].
Proof.
  intros Ue Hs Hf. destruct e as [net | entry | |]; cbn [handle].
  - destruct Ue.
  - exists (setSelectedCategory (Category.value entry) s), w. auto.
  - exists (clearAllFilters s), w. auto.
  - destruct (effect_on_store s w [] Hs)
      as (q & w' & P' & R & Hs' & Pm & L & _).
    apply Permutation_nil in Pm. subst P'. rewrite compute_nil in L.
    exists (setFilteredProducts (Arr q) s), w'.
    split; [exact R |]. split; [exact Hs' | exists q; auto].
Qed.

Lemma handle_alive e s w :
  productsOrRejected e ->
  alive w (products s) -> alive w (filteredProducts s) ->
  exists s' w',
    handle e s w = (Returns s', w') /\
    alive w' (products s') /\ alive w' (filteredProducts s').
Proof.
  intros Ae [P Hs] [F Hf]. destruct e as [net | entry | |]; cbn [handle].
  - assert (rejected net \/
            exists st items,
              net = Answered {| status := st; payload := Json (JProducts items) |})
      as [Rj | (st & items & ->)].
    { destruct net as [| [st [| [items |]]]]; cbn in *;
        [left; exact I | left; reflexivity | right; eauto | congruence]. }
    + destruct (fetch_rejected_run net s w Rj)
        as (a & b & w' & e & R & La & Lb & _).
      eexists _, w'. split; [exact R |].
      split; [exists [], a | exists [], b]; auto.
    + destruct (fetch_array_run st items s w) as (a & w' & R & _ & _ & La).
      eexists _, w'. split; [exact R |].
      split; exists items, a; auto.
  - eexists _, w. split; [reflexivity |]. split; [exists P | exists F]; auto.
  - eexists _, w. split; [reflexivity |]. split; [exists P | exists F]; auto.
  - destruct (effect_on_store s w P Hs) as (q & w' & P' & R & Hs' & _ & L & _).
    eexists _, w'. split; [exact R |].
    split; [exists P'; exact Hs' | eexists; exists q; eauto].
Qed.

Lemma fetch_returns_update net s w s' w' :
  fetchProducts net s w = (Returns s', w') ->
  exists v1 v2, s' = setFilteredProducts v2 (setProducts v1 s).
Proof.
  destruct net as [| [st [| [items |]]]].
  - destruct (fetch_rejected_run Unreachable s w I)
      as (a & b & w1 & e & R & _). rewrite R. intros [= <- <-]. eauto.
  - destruct (fetch_rejected_run
                (Answered {| status := st; payload := Malformed |}) s w eq_refl)
      as (a & b & w1 & e & R & _). rewrite R. intros [= <- <-]. eauto.
  - destruct (fetch_array_run st items s w) as (a & w1 & R & _).
    rewrite R. intros [= <- <-]. eauto.
  - rewrite fetch_other_run. intros [= <- <-]. eauto.
Qed.

Lemma handle_filters e s w s' w' :
  offered e -> handle e s w = (Returns s', w') ->
  initialFilters s -> initialFilters s'.
Proof.
  unfold initialFilters.
  intros Of Run (E1 & E2 & E3 & E4). destruct e as [net | entry | |];
    cbn [handle] in Run.
  - apply fetch_returns_update in Run as (v1 & v2 & ->). auto.
  - injection Run as <- <-.
    cbn [setSelectedCategory searchTerm selectedMetal sortBy selectedCategory].
    repeat split; try assumption. now apply in_map.
  - injection Run as <- <-. repeat split; try assumption. now left.
  - apply pipeline_returns_update in Run as (v & ->). auto.
Qed.

Lemma handle_displayed e s w s' w' :
  handle e s w = (Returns s', w') ->
  displayedWithinStore s w -> displayedWithinStore s' w'.
Proof.
  intros Run J. destruct e as [net | entry | |]; cbn [handle] in Run.
  - destruct net as [| [st [| [items |]]]].
    + destruct (fetch_rejected_run Unreachable s w I)
        as (a & b & w1 & e & R & La & Lb & _).
      rewrite R in Run. injection Run as <- <-.
      intros P F _ (r & [= <-] & E) p Hin. rewrite Lb in E.
      injection E as <-. destruct Hin.
    + destruct (fetch_rejected_run
                  (Answered {| status := st; payload := Malformed |}) s w eq_refl)
        as (a & b & w1 & e & R & La & Lb & _).
      rewrite R in Run. injection Run as <- <-.
      intros P F _ (r & [= <-] & E) p Hin. rewrite Lb in E.
      injection E as <-. destruct Hin.
    + destruct (fetch_array_run st items s w) as (a & w1 & R & _).
      rewrite R in Run. injection Run as <- <-.
      intros P F HP HF p Hin. cbn in HP, HF.
      now rewrite (holds_unique _ _ _ _ HP HF).
    + rewrite fetch_other_run in Run. injection Run as <- <-.
      intros P F (r & E & _). discriminate E.
  - injection Run as <- <-. exact J.
  - injection Run as <- <-. exact J.
  - destruct (pipeline_returns_store _ _ _ _ Run) as (r & P & Hp & Hr).
    destruct (effect_on_store s w P) as (q & w1 & P' & R & Hs' & Pm & L & _);
      [exists r; auto |].
    rewrite R in Run. injection Run as <- <-.
    intros P1 F HP (q' & [= <-] & E) p Hin. cbn in HP.
    rewrite (holds_unique _ _ _ _ HP Hs').
    rewrite L in E. injection E as <-.
    apply compute_In in Hin as [Hin _].
    eapply Permutation_in; [exact Pm | exact Hin].
Qed.

End PageFacts.

(** * Further properties of the page *)

Section Page.
Context `{Engine}.
Import JSFacts HeapFacts.

(** ** The second effect as a whole *)

(** X1: when the stored value is an array of product records, the effect
    ends normally.  The displayed list becomes an array holding [compute]
    of the stored records and the four parameters; the console is not
    written, and every array other than the stored one keeps its
    elements. *)
Theorem pipeline_displays_compute s w r P :
  products s = Arr r -> heap w !! r = Some P ->
  exists q w',
    pipeline s w = (Returns (setFilteredProducts (Arr q) s), w') /\
    heap w' !! q =
      Some (compute P (searchTerm s) (selectedCategory s) (selectedMetal s)
              (sortBy s)) /\
    console w' = console w /\
    (forall k a, k <> r -> heap w !! k = Some a -> heap w' !! k = Some a).
Proof.
  intros Hp Hr.
  destruct (pipeline_run_frame s w r P Hp Hr) as (q & w' & R & L & Cn & Fr & _).
  exists q, w'. auto.
Qed.

(** X2: the derived list is in the order of the sort key, and a product is
    in it exactly when it is in the store and gets through every filter
    that is switched on. *)
Theorem compute_sorted_and_exact P term c m key :
  StronglySorted (orderOf key) (compute P term c m key) /\
  (forall p, In p (compute P term c m key) <-> In p P /\ passes term c m p).
Proof.
  split; [| intros p; apply compute_In].
  rewrite compute_keeps. apply sort_orderOf.
Qed.

(** X3: the derived list is never longer than the store, and when the
    stored products have distinct ids, so have the displayed ones (the
    cards are keyed by id). *)
Theorem compute_keeps_ids_distinct P term c m key :
  length (compute P term c m key) <= length P /\
  (NoDup (map id P) -> NoDup (map id (compute P term c m key))).
Proof.
  rewrite compute_keeps.
  pose proof (sort_Permutation (comparator key)
                (List.filter (keeps term c m) P)) as S.
  split.
  - rewrite <- (Permutation_length S). apply List.filter_length_le.
  - intros Nd. pose proof (Permutation_map id S) as S'. rewrite <- S'.
    now apply NoDup_map_filter.
Qed.

(** X4: running the effect again changes nothing that is displayed: the
    second run ends with a displayed list of the same elements in the same
    order. *)
Theorem pipeline_rerun_displays_same s w r P :
  products s = Arr r -> heap w !! r = Some P ->
  exists s1 w1 s2 w2 out,
    pipeline s w = (Returns s1, w1) /\
    pipeline s1 w1 = (Returns s2, w2) /\
    holds w1 (filteredProducts s1) out /\
    holds w2 (filteredProducts s2) out.
Proof.
  intros Hp Hr.
  destruct (effect_on_store s w P) as (q & w1 & P1 & R1 & Hs1 & _ & L1 & _ & U1 & F1);
    [exists r; auto |].
  set (s1 := setFilteredProducts (Arr q) s) in *.
  destruct (effect_on_store s1 w1 P1 Hs1) as (q2 & w2 & P2 & R2 & _ & _ & L2 & _).
  exists s1, w1, (setFilteredProducts (Arr q2) s1), w2.
  eexists. split; [exact R1 |]. split; [exact R2 |].
  split; [exists q; split; [reflexivity | exact L1] |].
  exists q2. split; [reflexivity |]. rewrite L2. f_equal.
  change (searchTerm s1) with (searchTerm s).
  change (selectedCategory s1) with (selectedCategory s).
  change (selectedMetal s1) with (selectedMetal s).
  change (sortBy s1) with (sortBy s).
  destruct (unfiltered s) eqn:U.
  - specialize (U1 eq_refl).
    rewrite (holds_unique _ _ _ _ Hs1 U1).
    rewrite !(compute_unfiltered s _ U).
    apply sort_idempotent, comparator_consistent.
  - now rewrite (F1 eq_refl).
Qed.

(** X9: after "Clear All Filters" the next run of the effect displays the
    whole store again: the displayed list is a permutation of the stored
    one, in the order of the sort key that was kept. *)
Theorem reset_displays_whole_store s w r P :
  products s = Arr r -> heap w !! r = Some P ->
  exists s' w' out,
    pipeline (clearAllFilters s) w = (Returns s', w') /\
    holds w' (filteredProducts s') out /\
    Permutation P out /\
    StronglySorted (orderOf (sortBy s)) out.
Proof.
  intros Hp Hr. rewrite (clearAllFilters_then_pipeline s w r P Hp Hr).
  eexists _, _, _. split; [reflexivity |].
  split; [exists r; split; [reflexivity | apply lookup_insert_eq] |].
  split; [apply sort_Permutation | apply sort_orderOf].
Qed.

(** X10: the letter case of the search term does not matter: two non-empty
    terms with the same lower-case form give the same derived list. *)
Theorem search_ignores_case_of_term P t1 t2 c m key :
  toLowerCase t1 = toLowerCase t2 -> t1 <> "" -> t2 <> "" ->
  compute P t1 c m key = compute P t2 c m key.
Proof.
  intros E N1 N2. unfold compute.
  rewrite (proj2 (truthy_nonempty t1) N1), (proj2 (truthy_nonempty t2) N2).
  replace (List.filter (matchesSearch t1) P)
    with (List.filter (matchesSearch t2) P); [reflexivity |].
  apply List.filter_ext. intros p. unfold matchesSearch. now rewrite E.
Qed.

(** X11: nor does the letter case of the selected metal, as long as it is
    not the very string "all". *)
Theorem metal_ignores_case_of_selection P term c m1 m2 key :
  toLowerCase m1 = toLowerCase m2 -> m1 <> "all" -> m2 <> "all" ->
  compute P term c m1 key = compute P term c m2 key.
Proof.
  intros E N1 N2. unfold compute.
  rewrite (proj2 (strict_neq_iff m1 "all") N1).
  rewrite (proj2 (strict_neq_iff m2 "all") N2).
  f_equal. apply List.filter_ext. intros p. unfold matchesMetal. now rewrite E.
Qed.

(** ** The request and the page load *)

(** X5: a response whose body is a JSON array is taken over as it is,
    whatever its status: one new array holds the items in the order
    received, the stored list and the displayed list are both that array,
    nothing is logged and no other array is touched. *)
Theorem fetch_stores_array_as_received st items s w :
  exists a w',
    fetchProducts (Answered {| status := st; payload := Json (JProducts items) |})
      s w =
      (Returns (setFilteredProducts (Arr a) (setProducts (Arr a) s)), w') /\
    heap w !! a = None /\ heap w' !! a = Some items /\
    console w' = console w /\
    (forall k l, heap w !! k = Some l -> heap w' !! k = Some l).
Proof.
  destruct (fetch_array_run st items s w) as (a & w' & R & [Cn G] & N & L).
  exists a, w'. auto.
Qed.


(** X7: when the request is rejected, the page shows the panel and no
    card, and goes on doing so whatever is clicked and however often the
    effect runs. *)
Theorem failed_load_keeps_panel w0 net es :
  rejected net -> Forall userEvent es ->
  exists s w v,
    session (Effect :: Resolve net :: es) w0 = (Returns s, w) /\
    render s w = (Returns v, w) /\
    noResultsPanel v = true /\ cards v = [].
Proof.
  intros Rj Ue.
  destruct (init_run w0) as (a0 & b0 & w1 & Hinit & La & Lb & _).
  set (s0 := {| products := Arr a0; filteredProducts := Arr b0;
                searchTerm := ""; selectedCategory := "all";
                selectedMetal := "all"; sortBy := "name" |}) in *.
  destruct (handle_user_empty Effect s0 w1 I) as (s1 & w2 & R1 & _);
    [exists a0; auto | exists b0; auto |].
  destruct (fetch_rejected_run net s1 w2 Rj)
    as (a & b & w3 & e & R2 & La' & Lb' & _).
  set (s2 := setFilteredProducts (Arr b) (setProducts (Arr a) s1)) in *.
  assert (K : holds w3 (products s2) [] /\ holds w3 (filteredProducts s2) []).
  { split; [exists a | exists b]; auto. }
  assert (exists s w,
             run es s2 w3 = (Returns s, w) /\
             holds w (products s) [] /\ holds w (filteredProducts s) [])
    as (s & w & R & _ & Hf).
  { clearbody s2. clear - Ue K. revert s2 w3 K.
    induction Ue as [| ev es Hev _ IH]; intros s w [Ks Kf].
    - exists s, w. auto.
    - destruct (handle_user_empty ev s w Hev Ks Kf) as (s' & w' & R & Ks' & Kf').
      destruct (IH s' w' (conj Ks' Kf')) as (s'' & w'' & R' & K').
      exists s'', w''. split; [| exact K'].
      rewrite run_cons, R. exact R'. }
  exists s, w. eexists. split.
  - unfold session. unfold bind at 1. rewrite Hinit.
    rewrite run_cons, R1. rewrite run_cons. cbn [handle]. rewrite R2. exact R.
  - rewrite (render_run s w [] Hf). auto.
Qed.

(** X8: a response whose body is JSON but not an array is taken over as
    well, whatever its status, and the page cannot go on with it: both the
    next rendering and the next run of the effect throw. *)
Theorem non_array_body_breaks_page st s w :
  exists s',
    fetchProducts (Answered {| status := st; payload := Json JOther |}) s w =
      (Returns s', w) /\
    render s' w = (Throws NotAFunction, w) /\
    pipeline s' w = (Throws NotAFunction, w).
Proof.
  eexists. split; [apply fetch_other_run |].
  split; [reflexivity | now apply pipeline_throws_on_non_array].
Qed.

(** X12: until the response arrives the page shows the panel and no card,
    whatever is clicked in the meantime. *)
Theorem waiting_page_shows_panel w0 es :
  Forall userEvent es ->
  exists s w v,
    session es w0 = (Returns s, w) /\
    render s w = (Returns v, w) /\
    noResultsPanel v = true /\ cards v = [].
Proof.
  intros Ue.
  destruct (init_run w0) as (a0 & b0 & w1 & Hinit & La & Lb & _).
  set (s0 := {| products := Arr a0; filteredProducts := Arr b0;
                searchTerm := ""; selectedCategory := "all";
                selectedMetal := "all"; sortBy := "name" |}) in *.
  assert (K : holds w1 (products s0) [] /\ holds w1 (filteredProducts s0) []).
  { split; [exists a0 | exists b0]; auto. }
  assert (exists s w,
             run es s0 w1 = (Returns s, w) /\
             holds w (products s) [] /\ holds w (filteredProducts s) [])
    as (s & w & R & _ & Hf).
  { clearbody s0. clear - Ue K. revert s0 w1 K.
    induction Ue as [| ev es Hev _ IH]; intros s w [Ks Kf].
    - exists s, w. auto.
    - destruct (handle_user_empty ev s w Hev Ks Kf) as (s' & w' & R & Ks' & Kf').
      destruct (IH s' w' (conj Ks' Kf')) as (s'' & w'' & R' & K').
      exists s'', w''. split; [| exact K'].
      rewrite run_cons, R. exact R'. }
  exists s, w. eexists. split.
  - unfold session. unfold bind at 1. rewrite Hinit. exact R.
  - rewrite (render_run s w [] Hf). auto.
Qed.

End Page.

Section Sessions.
Context `{Engine}.
Import JSFacts HeapFacts.

(** ** What holds all along *)

(** X16: the page has no control for the search term, the metal or the
    sort key.  Whatever happens on it, the three keep the values they
    start with, and the selected category is one of those on offer. *)
Theorem filters_stay_initial w0 es s w :
  Forall offered es -> session es w0 = (Returns s, w) -> initialFilters s.
Proof.
  intros Of. unfold session, bind.
  destruct (init_run w0) as (a0 & b0 & w1 & Hinit & _). rewrite Hinit.
  assert (I0 : initialFilters
                 {| products := Arr a0; filteredProducts := Arr b0;
                    searchTerm := ""; selectedCategory := "all";
                    selectedMetal := "all"; sortBy := "name" |}).
  { repeat split. now left. }
  revert I0. generalize w1.
  generalize {| products := Arr a0; filteredProducts := Arr b0;
                searchTerm := ""; selectedCategory := "all";
                selectedMetal := "all"; sortBy := "name" |}.
  clear Hinit. induction Of as [| e es He _ IH]; intros s0 w' I0.
  - cbn [run]. unfold ret. now intros [= <- <-].
  - rewrite run_cons.
    destruct (handle e s0 w') as [[s1 | x] w2] eqn:Hd; [| discriminate].
    apply IH. exact (handle_filters e s0 w' s1 w2 He Hd I0).
Qed.

(** X17: as long as every response is rejected or carries an array of
    product records, no handler and no run of the effect throws, and the
    state they end in renders. *)
Theorem session_ends_normally w0 es :
  Forall productsOrRejected es ->
  exists s w v, session es w0 = (Returns s, w) /\ render s w = (Returns v, w).
Proof.
  intros Ar.
  destruct (init_run w0) as (a0 & b0 & w1 & Hinit & La & Lb & _).
  set (s0 := {| products := Arr a0; filteredProducts := Arr b0;
                searchTerm := ""; selectedCategory := "all";
                selectedMetal := "all"; sortBy := "name" |}) in *.
  assert (K : alive w1 (products s0) /\ alive w1 (filteredProducts s0)).
  { split; exists []; [exists a0 | exists b0]; auto. }
  assert (exists s w,
             run es s0 w1 = (Returns s, w) /\
             alive w (products s) /\ alive w (filteredProducts s))
    as (s & w & R & _ & [F Hf]).
  { clearbody s0. clear - Ar K. revert s0 w1 K.
    induction Ar as [| ev es Hev _ IH]; intros s w [Ks Kf].
    - exists s, w. auto.
    - destruct (handle_alive ev s w Hev Ks Kf) as (s' & w' & R & Ks' & Kf').
      destruct (IH s' w' (conj Ks' Kf')) as (s'' & w'' & R' & K').
      exists s'', w''. split; [| exact K'].
      rewrite run_cons, R. exact R'. }
  exists s, w. eexists. split.
  - unfold session. unfold bind at 1. rewrite Hinit. exact R.
  - apply (render_run s w F Hf).
Qed.

(** X18: clicks and runs of the effect never add a product to the store
    and never take one away: after any number of them the stored list is a
    permutation of what it was. *)
Theorem user_events_keep_the_store es s w P :
  Forall userEvent es -> holds w (products s) P ->
  exists s' w' P',
    run es s w = (Returns s', w') /\
    holds w' (products s') P' /\ Permutation P P'.
Proof.
  intros Ue. revert s w P.
  induction Ue as [| e es He _ IH]; intros s w P Hs.
  - exists s, w, P. repeat split; [exact Hs | reflexivity].
  - destruct (handle_user_store e s w P He Hs) as (s1 & w1 & P1 & R1 & Hs1 & Pm1).
    destruct (IH s1 w1 P1 Hs1) as (s2 & w2 & P2 & R2 & Hs2 & Pm2).
    exists s2, w2, P2. split; [now rewrite run_cons, R1 |].
    split; [exact Hs2 | now transitivity P1].
Qed.

(** X19: at every moment of the page's life, each displayed product is a
    stored one. *)
Theorem displayed_products_are_stored w0 es s w P F :
  session es w0 = (Returns s, w) ->
  holds w (products s) P -> holds w (filteredProducts s) F ->
  forall p, In p F -> In p P.
Proof.
  intros Run. revert P F. change (displayedWithinStore s w).
  revert Run. unfold session, bind.
  destruct (init_run w0) as (a0 & b0 & w1 & Hinit & _ & Lb & _). rewrite Hinit.
  assert (J : displayedWithinStore
                {| products := Arr a0; filteredProducts := Arr b0;
                   searchTerm := ""; selectedCategory := "all";
                   selectedMetal := "all"; sortBy := "name" |} w1).
  { intros P F _ (r & [= <-] & E) p Hin. rewrite Lb in E.
    injection E as <-. destruct Hin. }
  revert J. generalize w1.
  generalize {| products := Arr a0; filteredProducts := Arr b0;
                searchTerm := ""; selectedCategory := "all";
                selectedMetal := "all"; sortBy := "name" |}.
  clear. induction es as [| e es IH]; intros s0 w' J.
  - cbn [run]. unfold ret. now intros [= <- <-].
  - rewrite run_cons.
    destruct (handle e s0 w') as [[s1 | x] w2] eqn:Hd; [| discriminate].
    apply IH. exact (handle_displayed e s0 w' s1 w2 Hd J).
Qed.

End Sessions.

(** ** The markup *)

(** X13: clicking a navigation button makes it the one that is rendered
    as "default": in the next rendering a button has that look exactly when
    it is the clicked one, and there is exactly one such button. *)
Theorem click_highlights_its_button s b :
  In b (renderNavigation s) ->
  (forall b', In b' (renderNavigation (NavButton.onClick b s)) ->
     (NavButton.variant b' = "default" <-> NavButton.key b' = NavButton.key b)) /\
  length (List.filter (fun b' => strict_eq (NavButton.variant b') "default")
            (renderNavigation (NavButton.onClick b s))) = 1.
Proof.
  intros Hb. unfold renderNavigation in Hb.
  apply in_map_iff in Hb as (entry & <- & He).
  cbn [NavButton.onClick NavButton.key].
  assert (Sel : selectedCategory (setSelectedCategory (Category.value entry) s)
                = Category.value entry) by reflexivity.
  unfold renderNavigation. rewrite Sel.
  cbn [categories In] in He.
  destruct He as [<- | [<- | [<- | [<- | [<- | [<- | []]]]]]];
    (split; [| reflexivity]);
    intros b' Hb'; cbn in Hb';
    destruct Hb' as [<- | [<- | [<- | [<- | [<- | [<- | []]]]]]];
    cbn; split; congruence.
Qed.

(** X14: the rendering of a displayed array never fails and leaves heap and
    console alone.  There is one card per displayed product, in order, keyed
    by the product's id and headed by its name; no card is without an image
    address; and the panel is rendered exactly when there is no card. *)
Theorem render_shows_displayed_list s w F :
  holds w (filteredProducts s) F ->
  exists v,
    render s w = (Returns v, w) /\
    map Card.key (cards v) = map id F /\
    map Card.heading (cards v) = map name F /\
    Forall (fun c => Card.src c <> "") (cards v) /\
    (noResultsPanel v = true <-> cards v = []).
Proof.
  intros Hf. eexists. split; [apply (render_run s w F Hf) |].
  cbn [cards noResultsPanel].
  split; [| split; [| split]].
  - clear Hf. induction F as [|p F IH]; [reflexivity |]. cbn [map].
    now rewrite IH.
  - clear Hf. induction F as [|p F IH]; [reflexivity |]. cbn [map].
    now rewrite IH.
  - clear Hf. induction F as [|p F IH]; cbn [map]; constructor; [| exact IH].
    cbn [renderCard Card.src]. unfold orElse.
    destruct (image p); cbn [truthy]; discriminate.
  - destruct F; cbn [map]; split; congruence.
Qed.

(** X15: a card never leads where the button of its category leads: for
    each category on offer, the address a product of that category links to
    differs from the address of the category's button. *)
Theorem card_link_differs_from_category_path entry p :
  In entry categories -> category p = Category.value entry ->
  Card.href (renderCard p) <> Category.path entry.
Proof.
  intros He Hc. cbn [renderCard Card.href]. rewrite Hc.
  cbn [categories In] in He.
  destruct He as [<- | [<- | [<- | [<- | [<- | [<- | []]]]]]];
    cbn [Category.value Category.path]; intros E;
    apply (f_equal String.length) in E; vm_compute in E; discriminate E.
Qed.

(** * The visit to the sample catalog *)

Import Visit.

Example visit_run :
  exists s w,
    session visit blank = (Returns s, w) /\
    holds w (products s) [goldRing; pearlPendant; silverBand] /\
    holds w (filteredProducts s) [goldRing; silverBand].
Proof.
  eexists _, _. split; [vm_compute; reflexivity |].
  split; eexists; (split; [reflexivity |]); vm_compute; reflexivity.
Qed.

Lemma pipeline_displays_compute_witness :
  exists q w',
    pipeline (setSelectedCategory "Rings" defaults) (store catalog) =
      (Returns (setFilteredProducts (Arr q) (setSelectedCategory "Rings" defaults)),
       w') /\
    heap w' !! q = Some (compute catalog "" "Rings" "all" "name") /\
    console w' = console (store catalog) /\
    (forall k a, k <> 1%positive ->
                 heap (store catalog) !! k = Some a -> heap w' !! k = Some a).
Proof.
  apply (pipeline_displays_compute (setSelectedCategory "Rings" defaults)
           (store catalog) 1%positive catalog); reflexivity.
Defined.

Lemma compute_keeps_ids_distinct_witness :
  NoDup (map id catalog) /\
  NoDup (map id (compute catalog "" "Rings" "all" "name")) /\
  length (compute catalog "" "Rings" "all" "name") <= length catalog.
Proof.
  assert (Nd : NoDup (map id catalog)).
  { apply (bool_decide_unpack _). vm_compute. reflexivity. }
  destruct (compute_keeps_ids_distinct catalog "" "Rings" "all" "name")
    as [Len Keep].
  split; [exact Nd |]. split; [exact (Keep Nd) | exact Len].
Defined.

Lemma pipeline_rerun_displays_same_witness :
  exists s1 w1 s2 w2 out,
    pipeline (setSelectedCategory "Rings" defaults) (store catalog) =
      (Returns s1, w1) /\
    pipeline s1 w1 = (Returns s2, w2) /\
    holds w1 (filteredProducts s1) out /\
    holds w2 (filteredProducts s2) out.
Proof.
  apply (pipeline_rerun_displays_same (setSelectedCategory "Rings" defaults)
           (store catalog) 1%positive catalog); reflexivity.
Defined.

Lemma failed_load_keeps_panel_witness :
  rejected Unreachable /\ Forall userEvent clicks /\
  exists s w v,
    session (Effect :: Resolve Unreachable :: clicks) blank = (Returns s, w) /\
    render s w = (Returns v, w) /\
    noResultsPanel v = true /\ cards v = [].
Proof.
  assert (Ue : Forall userEvent clicks) by (repeat constructor).
  split; [exact I |]. split; [exact Ue |].
  apply (failed_load_keeps_panel blank Unreachable clicks I Ue).
Defined.

Lemma reset_displays_whole_store_witness :
  exists s' w' out,
    pipeline (clearAllFilters (setSelectedCategory "Rings" defaults))
      (store catalog) = (Returns s', w') /\
    holds w' (filteredProducts s') out /\
    Permutation catalog out /\
    StronglySorted (orderOf (sortBy (setSelectedCategory "Rings" defaults))) out.
Proof.
  apply (reset_displays_whole_store (setSelectedCategory "Rings" defaults)
           (store catalog) 1%positive catalog); reflexivity.
Defined.

Lemma search_ignores_case_of_term_witness :
  toLowerCase "GOLD" = toLowerCase "gold" /\
  compute catalog "GOLD" "all" "all" "name" =
  compute catalog "gold" "all" "all" "name".
Proof.
  split; [reflexivity |].
  apply search_ignores_case_of_term; [reflexivity | discriminate | discriminate].
Defined.

Lemma metal_ignores_case_of_selection_witness :
  toLowerCase "SILVER" = toLowerCase "Silver" /\
  compute catalog "" "all" "SILVER" "name" =
  compute catalog "" "all" "Silver" "name".
Proof.
  split; [reflexivity |].
  apply metal_ignores_case_of_selection; [reflexivity | discriminate | discriminate].
Defined.

Lemma waiting_page_shows_panel_witness :
  Forall userEvent clicks /\
  exists s w v,
    session clicks blank = (Returns s, w) /\
    render s w = (Returns v, w) /\
    noResultsPanel v = true /\ cards v = [].
Proof.
  assert (Ue : Forall userEvent clicks) by (repeat constructor).
  split; [exact Ue | apply (waiting_page_shows_panel blank clicks Ue)].
Defined.

Lemma click_highlights_its_button_witness :
  In ringsButton (renderNavigation defaults) /\
  (forall b', In b' (renderNavigation (NavButton.onClick ringsButton defaults)) ->
     (NavButton.variant b' = "default" <->
      NavButton.key b' = NavButton.key ringsButton)) /\
  length (List.filter (fun b' => strict_eq (NavButton.variant b') "default")
            (renderNavigation (NavButton.onClick ringsButton defaults))) = 1.
Proof.
  assert (Hb : In ringsButton (renderNavigation defaults)).
  { vm_compute. right. left. reflexivity. }
  split; [exact Hb | apply (click_highlights_its_button defaults ringsButton Hb)].
Defined.

Lemma render_shows_displayed_list_witness :
  exists v,
    render defaults (store catalog) = (Returns v, store catalog) /\
    map Card.key (cards v) = map id catalog /\
    map Card.heading (cards v) = map name catalog /\
    Forall (fun c => Card.src c <> "") (cards v) /\
    (noResultsPanel v = true <-> cards v = []).
Proof.
  apply (render_shows_displayed_list defaults (store catalog) catalog).
  exists 1%positive. split; reflexivity.
Defined.

Lemma card_link_differs_from_category_path_witness :
  In ringsEntry categories /\
  category goldRing = Category.value ringsEntry /\
  Card.href (renderCard goldRing) <> Category.path ringsEntry.
Proof.
  assert (He : In ringsEntry categories) by (vm_compute; right; left; reflexivity).
  split; [exact He |]. split; [reflexivity |].
  apply (card_link_differs_from_category_path ringsEntry goldRing He).
  reflexivity.
Defined.

Lemma filters_stay_initial_witness :
  Forall offered visit /\
  exists s w, session visit blank = (Returns s, w) /\ initialFilters s.
Proof.
  assert (Of : Forall offered visit).
  { repeat (constructor;
              [first [exact I | vm_compute; right; left; reflexivity] |]).
    constructor. }
  split; [exact Of |].
  eexists _, _.
  assert (Run : session visit blank = (Returns _, _)) by (vm_compute; reflexivity).
  split; [exact Run |].
  exact (filters_stay_initial blank visit _ _ Of Run).
Defined.

Lemma session_ends_normally_witness :
  Forall productsOrRejected visit /\
  exists s w v,
    session visit blank = (Returns s, w) /\ render s w = (Returns v, w).
Proof.
  assert (Ar : Forall productsOrRejected visit).
  { repeat constructor. discriminate. }
  split; [exact Ar | apply (session_ends_normally blank visit Ar)].
Defined.

Lemma user_events_keep_the_store_witness :
  Forall userEvent clicks /\
  holds (store catalog) (products defaults) catalog /\
  exists s' w' P',
    run clicks defaults (store catalog) = (Returns s', w') /\
    holds w' (products s') P' /\ Permutation catalog P'.
Proof.
  assert (Ue : Forall userEvent clicks) by (repeat constructor).
  assert (Hs : holds (store catalog) (products defaults) catalog).
  { exists 1%positive. split; reflexivity. }
  split; [exact Ue |]. split; [exact Hs |].
  apply (user_events_keep_the_store clicks defaults (store catalog) catalog Ue Hs).
Defined.

Lemma displayed_products_are_stored_witness :
  exists s w,
    session visit blank = (Returns s, w) /\
    holds w (products s) [goldRing; pearlPendant; silverBand] /\
    holds w (filteredProducts s) [goldRing; silverBand] /\
    In silverBand [goldRing; silverBand] /\
    In silverBand [goldRing; pearlPendant; silverBand].
Proof.
  eexists _, _.
  assert (Run : session visit blank = (Returns _, _)) by (vm_compute; reflexivity).
  split; [exact Run |].
  match type of Run with _ = (Returns ?s, ?w) =>
    assert (HP : holds w (products s) [goldRing; pearlPendant; silverBand])
      by (eexists; split; [reflexivity | vm_compute; reflexivity]);
    assert (HF : holds w (filteredProducts s) [goldRing; silverBand])
      by (eexists; split; [reflexivity | vm_compute; reflexivity])
  end.
  assert (Hin : In silverBand [goldRing; silverBand]) by (right; left; reflexivity).
  split; [exact HP |]. split; [exact HF |]. split; [exact Hin |].
  exact (displayed_products_are_stored blank visit _ _ _ _ Run HP HF silverBand Hin).
Defined.
